(** * lambeq: the web parser client ([lambeq/ccg2discocat/web_parser.py])

    A shallow embedding of [WebParser.sentences2trees] and of the batch type
    checks of [lambeq/core/utils.py].  Python objects live in a heap of
    mutable cells, the network is a function from request URLs to responses,
    and the method is a computation in a state-and-exception monad whose
    state carries the heap and the log of the requests issued so far. *)

From Stdlib Require Import String Ascii DecimalString DecimalNat DecimalZ.
From stdpp Require Import base option list gmap.

Set Default Proof Using "Type".

(** ** Python strings *)

(** A [str] is a sequence of Unicode code points. *)
Abbreviation char := N (only parsing).
Abbreviation str := (list N) (only parsing).

(** A string literal of the source, as a [str]. *)
Definition lit (s : string) : str := map N_of_ascii (list_ascii_of_string s).

(** The decimal text of a non-negative [int], as f-string interpolation
    prints it. *)
Definition str_of_nat (n : nat) : str := lit (NilEmpty.string_of_uint (Nat.to_uint n)).

(** [str.isspace] on one code point: the characters [str.split()] with no
    argument splits on. *)
Definition isspace (c : char) : bool :=
  ((9 <=? c) && (c <=? 13) || (28 <=? c) && (c <=? 32)
   || (c =? 133) || (c =? 160) || (c =? 5760)
   || (8192 <=? c) && (c <=? 8202)
   || (c =? 8232) || (c =? 8233) || (c =? 8239) || (c =? 8287)
   || (c =? 12288))%N.

(** [str.split()]: [tok] is the word being scanned; runs of whitespace
    separate words and never produce an empty word. *)
Fixpoint split_from (tok s : str) : list str :=
  match s with
  | [] => match tok with [] => [] | _ => [tok] end
  | c :: s' =>
      if isspace c
      then match tok with [] => split_from [] s' | _ => tok :: split_from [] s' end
      else split_from (tok ++ [c]) s'
  end.

Definition str_split (s : str) : list str := split_from [] s.

(** [sep.join(words)] on a list of strings. *)
Fixpoint str_join (sep : str) (words : list str) : str :=
  match words with
  | [] => []
  | [w] => w
  | w :: ws => w ++ sep ++ str_join sep ws
  end.

(** Truth value of a string: [not sentence] holds for the empty string. *)
Definition str_not (s : str) : bool := match s with [] => true | _ => false end.

(** ** Values, objects, exceptions *)

Definition loc := positive.

(** Values: [None], integers, strings, and references to heap objects. *)
Inductive pyval :=
| PNone
| PInt (z : Z)
| PStr (s : str)
| PRef (l : loc).

(** Heap objects: [list] instances and [WebParser] instances. *)
Inductive pyobj :=
| OList (items : list pyval)
| OWebParser (service_url : str).

(** Exceptions.  [ValueError] and [WebParseError] are the ones the method
    raises itself; [LibraryError] stands for whatever a library collaborator
    raises ([URLError], [JSONDecodeError], [KeyError], ...); the remaining
    ones guard operations on values of the wrong kind. *)
Inductive exn :=
| ValueError (msg : str)
| WebParseError (sentence : str) (error_code : Z)
| LibraryError (name : str)
| TypeError
| IndexError
| AttributeError
| NameError.

Inductive result (A : Type) :=
| Return (a : A)
| Raise (e : exn).
Arguments Return {A} a.
Arguments Raise {A} e.

(** What [with urlopen(url) as f: data = json.load(f)] does for one URL:
    a decoded document, an [HTTPError] with its status [code], or any other
    exception. *)
Inductive response (json : Type) :=
| Body (data : json)
| HTTPError (code : Z)
| Failure (e : exn).
Arguments Body {json} data.
Arguments HTTPError {json} code.
Arguments Failure {json} e.

(** The collaborators outside the module: [CCGTree.from_json], and from the
    standard library [urlencode] (here [urlencode s] is
    [urlencode({'sentence': s})]) and [urlopen] followed by [json.load]. *)
Class Environment (json tree : Type) := {
  from_json : json → result tree;
  urlencode : str → result str;
  urlopen : str → response json;
}.

(** ** State and the monad *)

Record state := State {
  heap : gmap loc pyobj;
  requests : list str;
}.

Definition M (A : Type) : Type := state → state * result A.

Definition run {A} (m : M A) (st : state) : state * result A := m st.

#[global] Instance M_ret : MRet M := λ A a st, (st, Return a).

#[global] Instance M_bind : MBind M := λ A B f m st,
  match m st with
  | (st', Return a) => f a st'
  | (st', Raise e) => (st', Raise e)
  end.

Definition raise {A} (e : exn) : M A := λ st, (st, Raise e).

Definition lift {A} (r : result A) : M A := λ st, (st, r).

Definition get_heap : M (gmap loc pyobj) := λ st, (st, Return (heap st)).

(** Map a fallible function over a list, stopping at the first exception. *)
Fixpoint map_result {A B} (f : A → result B) (l : list A) : result (list B) :=
  match l with
  | [] => Return []
  | x :: l' =>
      match f x with
      | Raise e => Raise e
      | Return y =>
          match map_result f l' with
          | Raise e => Raise e
          | Return ys => Return (y :: ys)
          end
      end
  end.

Fixpoint map_M {A B} (f : A → M B) (l : list A) : M (list B) :=
  match l with
  | [] => mret []
  | x :: l' => y ← f x; ys ← map_M f l'; mret (y :: ys)
  end.

(** A new object at an unused address. *)
Definition alloc (o : pyobj) : M loc := λ st,
  let l := fresh (dom (heap st)) in
  (State (<[l:=o]> (heap st)) (requests st), Return l).

(** The items of a list object, for iteration. *)
Definition get_list (v : pyval) : M (list pyval) := λ st,
  match v with
  | PRef l =>
      match heap st !! l with
      | Some (OList items) => (st, Return items)
      | _ => (st, Raise TypeError)
      end
  | _ => (st, Raise TypeError)
  end.

Definition as_str (v : pyval) : result str :=
  match v with
  | PStr s => Return s
  | _ => Raise TypeError
  end.

(** The items of a [list[str]] object. *)
Definition get_str_list (v : pyval) : M (list str) :=
  items ← get_list v; lift (map_result as_str items).

(** [del v[i]]. *)
Definition del_item (v : pyval) (i : nat) : M unit := λ st,
  match v with
  | PRef l =>
      match heap st !! l with
      | Some (OList items) =>
          if decide (i < length items)
          then (State (<[l:=OList (delete i items)]> (heap st)) (requests st),
                Return ())
          else (st, Raise IndexError)
      | _ => (st, Raise TypeError)
      end
  | _ => (st, Raise TypeError)
  end.

(** [self.service_url]. *)
Definition get_service_url (self : loc) : M str := λ st,
  match heap st !! self with
  | Some (OWebParser u) => (st, Return u)
  | _ => (st, Raise AttributeError)
  end.

(** [l.insert(i, x)] for [0 <= i]: past the end it appends. *)
Definition py_insert {A} (i : nat) (x : A) (l : list A) : list A :=
  take i l ++ x :: drop i l.

(** [str(v)]; the method only applies it to strings, where it is the
    identity. *)
Definition py_str (v : pyval) : result str := as_str v.

(** [sep.join(items)]: every item has to be a string. *)
Definition py_join (sep : str) (items : list pyval) : result str :=
  match map_result as_str items with
  | Return words => Return (str_join sep words)
  | Raise e => Raise e
  end.

(** ** [lambeq/core/utils.py]: the batch type checks *)

Definition isinstance_str (v : pyval) : bool :=
  match v with PStr _ => true | _ => false end.

Definition isinstance_list (h : gmap loc pyobj) (v : pyval) : bool :=
  match v with
  | PRef l => match h !! l with Some (OList _) => true | _ => false end
  | _ => false
  end.

(** The items a [for] over [v] visits, once [v] is known to be a list. *)
Definition items_of (h : gmap loc pyobj) (v : pyval) : list pyval :=
  match v with
  | PRef l => match h !! l with Some (OList items) => items | _ => [] end
  | _ => []
  end.

Definition tokenised_sentence_type_check (h : gmap loc pyobj) (sentence : pyval) : bool :=
  isinstance_list h sentence && forallb isinstance_str (items_of h sentence).

Definition untokenised_batch_type_check (h : gmap loc pyobj) (sentence : pyval) : bool :=
  isinstance_list h sentence && forallb isinstance_str (items_of h sentence).

Definition tokenised_batch_type_check (h : gmap loc pyobj) (batch : pyval) : bool :=
  isinstance_list h batch
  && forallb (tokenised_sentence_type_check h) (items_of h batch).

(** ** [lambeq/ccg2discocat/web_parser.py] *)

Definition SERVICE_URL : str := lit "https://cqc.pythonanywhere.com/tree/json".

(** [WebParser(service_url)]: a new client object holding the URL. *)
Definition WebParser_init (service_url : option str) : M loc :=
  alloc (OWebParser (default SERVICE_URL service_url)).

(** The decimal text of an [int], as f-string interpolation prints it. *)
Definition str_of_Z (z : Z) : str := lit (NilEmpty.string_of_int (Z.to_int z)).

(** [WebParseError.__str__] (lines 37-39), for an error holding [sentence]
    and [error_code]; [repr] is the interpreter's [repr] on strings. *)
Definition WebParseError_str (repr : str → str) (sentence : str) (error_code : Z) : str :=
  lit "Online parsing of sentence " ++ repr sentence
  ++ lit " failed, Web status code: " ++ str_of_Z error_code ++ lit ".".

Definition tokenised_message : str :=
  lit "`tokenised` set to `True`, but variable `sentences` does not have type `list[list[str]]`.".

Definition untokenised_message : str :=
  lit "`tokenised` set to `False`, but variable `sentences` does not have type `list[str]`.".

Definition blank_message (i : nat) : str :=
  lit "Sentence at index " ++ str_of_nat i ++ lit " is blank.".

(** Lines 103-109: the scan for blank sentences.  [sentence] is the loop
    variable, which stays bound to the last item visited once the loop is
    over. *)
Fixpoint blank_loop (suppress_exceptions : bool) (i : nat) (items : list str)
    (empty_indices : list nat) (sentence : option str)
    : result (list nat * option str) :=
  match items with
  | [] => Return (empty_indices, sentence)
  | s :: rest =>
      if str_not s then
        if suppress_exceptions
        then blank_loop suppress_exceptions (S i) rest (empty_indices ++ [i]) (Some s)
        else Raise (ValueError (blank_message i))
      else blank_loop suppress_exceptions (S i) rest empty_indices (Some s)
  end.

(** Lines 111-112, given the indices already reversed. *)
Fixpoint del_loop (sentences : pyval) (indices : list nat) : M unit :=
  match indices with
  | [] => mret ()
  | i :: rest => del_item sentences i;; del_loop sentences rest
  end.

(** Lines 136-137. *)
Definition insert_loop {A} (empty_indices : list nat) (trees : list (option A))
    : list (option A) :=
  fold_left (λ trees i, py_insert i None trees) empty_indices trees.

Section WebParser.
Context {json tree : Type} {env : Environment json tree}.

(** The request for one sentence: append the URL to the log and answer as
    the network does. *)
Definition http_get (url : str) : M (response json) := λ st,
  (State (heap st) (requests st ++ [url]), Return (urlopen url)).

(** Lines 116-133: one round of the request loop, with [sentence] the
    variable left over from the blank scan. *)
Definition parse_one (self : loc) (suppress_exceptions : bool)
    (sentence : option str) (sent : str) : M (option tree) :=
  params ← lift (urlencode sent);
  service_url ← get_service_url self;
  let url := service_url ++ lit "?" ++ params in
  r ← http_get url;
  match r with
  | Body data => t ← lift (from_json data); mret (Some t)
  | HTTPError code =>
      if suppress_exceptions then mret None
      else
        match sentence with
        | Some s => raise (WebParseError s code)
        | None => raise NameError
        end
  | Failure e =>
      if suppress_exceptions then mret None else raise e
  end.

(** Lines 114-134. *)
Fixpoint parse_loop (self : loc) (suppress_exceptions : bool)
    (sentence : option str) (sents : list str) (trees : list (option tree))
    : M (list (option tree)) :=
  match sents with
  | [] => mret trees
  | sent :: rest =>
      t ← parse_one self suppress_exceptions sentence sent;
      parse_loop self suppress_exceptions sentence rest (trees ++ [t])
  end.

(** Lines 90-102: check the batch against the flag and bind [sentences]
    to a new list of normalised sentences. *)
Definition normalise_batch (sentences : pyval) (tokenised : bool) : M pyval :=
  h ← get_heap;
  if tokenised then
    if negb (tokenised_batch_type_check h sentences)
    then raise (ValueError tokenised_message)
    else
      items ← get_list sentences;
      joined ← map_M (λ sentence,
                        toks ← get_list sentence;
                        lift (py_join (lit " ") toks)) items;
      l ← alloc (OList (PStr <$> joined));
      mret (PRef l)
  else
    if negb (untokenised_batch_type_check h sentences)
    then raise (ValueError untokenised_message)
    else
      items ← get_list sentences;
      sent_list ← lift (map_result py_str items);
      l ← alloc (OList ((λ sentence, PStr (str_join (lit " ") (str_split sentence)))
                          <$> sent_list));
      mret (PRef l).

Definition sentences2trees (self : loc) (sentences : pyval)
    (suppress_exceptions tokenised : bool) : M (list (option tree)) :=
  sentences ← normalise_batch sentences tokenised;
  items ← get_str_list sentences;
  '(empty_indices, sentence) ← lift (blank_loop suppress_exceptions 0 items [] None);
  del_loop sentences (rev empty_indices);;
  sents ← get_str_list sentences;
  trees ← parse_loop self suppress_exceptions sentence sents [];
  mret (insert_loop empty_indices trees).

End WebParser.

(** ** A test double for the collaborators

    Documents and trees are plain strings; the network answers from a table
    of canned responses, as a mocked [urlopen] would. *)

Definition hex_digit (n : N) : char :=
  (if n <? 10 then 48 + n else 55 + n)%N.

(** UTF-8 bytes of one code point; surrogates and values past U+10FFFF have
    no encoding. *)
Definition utf8 (c : char) : result (list N) :=
  (if c <? 128 then Return [c]
   else if c <? 2048 then Return [192 + c / 64; 128 + c mod 64]
   else if (55296 <=? c) && (c <=? 57343) then Raise (LibraryError (lit "UnicodeEncodeError"))
   else if c <? 65536 then Return [224 + c / 4096; 128 + (c / 64) mod 64; 128 + c mod 64]
   else if c <? 1114112
     then Return [240 + c / 262144; 128 + (c / 4096) mod 64; 128 + (c / 64) mod 64; 128 + c mod 64]
   else Raise (LibraryError (lit "UnicodeEncodeError")))%N.

Definition always_safe (b : N) : bool :=
  ((48 <=? b) && (b <=? 57) || (65 <=? b) && (b <=? 90) || (97 <=? b) && (b <=? 122)
   || (b =? 95) || (b =? 46) || (b =? 45) || (b =? 126))%N.

Definition quote_byte (b : N) : str :=
  (if always_safe b then [b]
   else if b =? 32 then lit "+"
   else lit "%" ++ [hex_digit (b / 16); hex_digit (b mod 16)])%N.

(** [quote_plus]. *)
Fixpoint quote_plus (s : str) : result str :=
  match s with
  | [] => Return []
  | c :: s' =>
      match utf8 c with
      | Raise e => Raise e
      | Return bytes =>
          match quote_plus s' with
          | Raise e => Raise e
          | Return q => Return (concat (quote_byte <$> bytes) ++ q)
          end
      end
  end.

Definition mock_urlencode (s : str) : result str :=
  match quote_plus s with
  | Return q => Return (lit "sentence=" ++ q)
  | Raise e => Raise e
  end.

(** The canned answer for [url], a connection failure when there is none. *)
Fixpoint mock_urlopen (table : list (str * response str)) (url : str) : response str :=
  match table with
  | [] => Failure (LibraryError (lit "URLError"))
  | (u, r) :: table' => if decide (u = url) then r else mock_urlopen table' url
  end.

(** The mocked tree decoder rejects the empty document. *)
Definition mock_from_json (data : str) : result str :=
  match data with
  | [] => Raise (LibraryError (lit "KeyError"))
  | _ => Return (lit "tree:" ++ data)
  end.

Definition mock (table : list (str * response str)) : Environment str str :=
  {| from_json := mock_from_json;
     urlencode := mock_urlencode;
     urlopen := mock_urlopen table |}.

(** A heap holding a client at address 1 and the batch [""; "hello"], both
    as a list of strings (address 2) and as a list of token lists
    (address 5, over the token lists at 3 and 4). *)
Definition demo_url : str := lit "http://parser.test/tree".

Definition demo_heap : gmap loc pyobj :=
  <[1%positive := OWebParser demo_url]>
  (<[2%positive := OList [PStr (lit ""); PStr (lit "hello")]]>
  (<[3%positive := OList []]>
  (<[4%positive := OList [PStr (lit "hello")]]>
  (<[5%positive := OList [PRef 3%positive; PRef 4%positive]]> ∅)))).

Definition demo_state : state := State demo_heap [].

Definition demo_table : list (str * response str) :=
  [(lit "http://parser.test/tree?sentence=hello", Body (lit "hello"))].

(** The batch of the sentence "I like tea": as tokens (address 3 over the
    token list at 2) and as a plain string with stray whitespace (4). *)
Definition tea_heap : gmap loc pyobj :=
  <[1%positive := OWebParser demo_url]>
  (<[2%positive := OList [PStr (lit "I"); PStr (lit "like"); PStr (lit "tea")]]>
  (<[3%positive := OList [PRef 2%positive]]>
  (<[4%positive := OList [PStr (lit "  I   like   tea  ")]]> ∅))).

Definition tea_state : state := State tea_heap [].

Definition tea_url : str := lit "http://parser.test/tree?sentence=I+like+tea".

Definition tea_table : list (str * response str) :=
  [(tea_url, Body (lit "I like tea"))].

(** A tokenised batch whose tokens are or contain whitespace: the token
    lists [" "] (address 2) and [" "; "a"] (address 3) in the batch at 4. *)
Definition space_heap : gmap loc pyobj :=
  <[1%positive := OWebParser demo_url]>
  (<[2%positive := OList [PStr (lit " ")]]>
  (<[3%positive := OList [PStr (lit " "); PStr (lit "a")]]>
  (<[4%positive := OList [PRef 2%positive; PRef 3%positive]]> ∅))).

Definition space_state : state := State space_heap [].

(** The batch ["a"; "b"], for which the service answers the first sentence
    with status 500. *)
Definition ab_heap : gmap loc pyobj :=
  <[1%positive := OWebParser demo_url]>
  (<[2%positive := OList [PStr (lit "a"); PStr (lit "b")]]> ∅).

Definition ab_state : state := State ab_heap [].

Definition ab_table : list (str * response str) :=
  [(lit "http://parser.test/tree?sentence=a", HTTPError 500);
   (lit "http://parser.test/tree?sentence=b", Body (lit "b"))].

(** The sentence "I like tea" as tokens (address 3 over the token list at
    2) and written out as text (4). *)
Definition text_heap : gmap loc pyobj :=
  <[1%positive := OWebParser demo_url]>
  (<[2%positive := OList [PStr (lit "I"); PStr (lit "like"); PStr (lit "tea")]]>
  (<[3%positive := OList [PRef 2%positive]]>
  (<[4%positive := OList [PStr (lit "I like tea")]]> ∅))).

Definition text_state : state := State text_heap [].

(** A stand-in for [repr] on strings without quotes or escapes. *)
Definition quoted (s : str) : str := lit "'" ++ s ++ lit "'".

(** The batch [""; "hello"] once more, in another heap: the client sits
    at address 7 and the batch at 9. *)
Definition moved_heap : gmap loc pyobj :=
  <[7%positive := OWebParser demo_url]>
  (<[9%positive := OList [PStr (lit ""); PStr (lit "hello")]]> ∅).

Definition moved_state : state :=
  State moved_heap [lit "http://parser.test/earlier"].

(** ** Vocabulary of the specification *)

(** [v] is a list object holding exactly the strings [ss]. *)
Definition holds_str_list (h : gmap loc pyobj) (v : pyval) (ss : list str) : Prop :=
  ∃ l, v = PRef l ∧ h !! l = Some (OList (PStr <$> ss)).

(** [v] is a list object whose items are list objects holding the token
    sequences [tss]. *)
Definition holds_token_lists (h : gmap loc pyobj) (v : pyval) (tss : list (list str)) : Prop :=
  ∃ l items, v = PRef l ∧ h !! l = Some (OList items)
             ∧ Forall2 (holds_str_list h) items tss.

(** The shape a batch must have under each value of [tokenised]. *)
Definition matches_flag (h : gmap loc pyobj) (v : pyval) (tokenised : bool) : Prop :=
  if tokenised then ∃ tss, holds_token_lists h v tss
  else ∃ ss, holds_str_list h v ss.

(** A plain sentence with its whitespace runs collapsed. *)
Definition collapse (s : str) : str := str_join (lit " ") (str_split s).

(** The batch [v], read as [tokenised] says, normalises to [ns]. *)
Definition normal_forms (h : gmap loc pyobj) (v : pyval) (tokenised : bool)
    (ns : list str) : Prop :=
  if tokenised
  then ∃ tss, holds_token_lists h v tss ∧ ns = str_join (lit " ") <$> tss
  else ∃ ss, holds_str_list h v ss ∧ ns = collapse <$> ss.

(** The sentences of a normalised batch that are not blank. *)
Definition nonblank (ns : list str) : list str :=
  List.filter (λ s, negb (str_not s)) ns.

(** The positions of the blank sentences, counted from [i]. *)
Fixpoint blank_indices (i : nat) (ns : list str) : list nat :=
  match ns with
  | [] => []
  | s :: rest =>
      if str_not s then i :: blank_indices (S i) rest
      else blank_indices (S i) rest
  end.

(** The result list realigned with the batch: an absent entry at every
    blank position, the entries [ts] of the other sentences in order. *)
Fixpoint realign {A} (ns : list str) (ts : list (option A)) : list (option A) :=
  match ns with
  | [] => []
  | s :: ns' =>
      if str_not s then None :: realign ns' ts
      else match ts with
           | t :: ts' => t :: realign ns' ts'
           | [] => []
           end
  end.

(** No whitespace at either end and no two whitespace characters in a row. *)
Fixpoint no_whitespace_run (s : str) : bool :=
  match s with
  | c1 :: s' =>
      match s' with
      | c2 :: _ => negb (isspace c1 && isspace c2) && no_whitespace_run s'
      | [] => true
      end
  | [] => true
  end.

Definition whitespace_collapsed (s : str) : bool :=
  negb (from_option isspace false (head s))
  && negb (from_option isspace false (last s))
  && no_whitespace_run s.

(** A non-empty string that starts and ends outside whitespace and has no
    whitespace run. *)
Definition tidy (s : str) : Prop :=
  (∃ c s', s = c :: s' ∧ isspace c = false)
  ∧ from_option isspace false (last s) = false
  ∧ no_whitespace_run s = true.

(** A token as a tokeniser produces it: not empty, no whitespace inside. *)
Definition proper_token (t : str) : bool :=
  negb (str_not t) && forallb (λ c, negb (isspace c)) t.

Section Vocabulary.
Context {json tree : Type} {env : Environment json tree}.

(** The URL requested for sentence [s] by a client configured with [u]. *)
Definition request_url (u s : str) : result str :=
  match urlencode s with
  | Return params => Return (u ++ lit "?" ++ params)
  | Raise e => Raise e
  end.


(** The outcome of one sentence [s]: its entry in the result list, or the
    exception that ends the call; [sentence] is what the exception for an
    HTTP error status reports. *)
Definition entry (suppress_exceptions : bool) (sentence : option str)
    (u s : str) : result (option tree) :=
  match request_url u s with
  | Raise e => Raise e
  | Return url =>
      match urlopen url with
      | Body data =>
          match from_json data with
          | Return t => Return (Some t)
          | Raise e => Raise e
          end
      | HTTPError code =>
          if suppress_exceptions then Return None
          else Raise (match sentence with
                      | Some s' => WebParseError s' code
                      | None => NameError
                      end)
      | Failure e => if suppress_exceptions then Return None else Raise e
      end
  end.

(** The entry of each position of a normalised batch when exceptions are
    suppressed: [None] for a blank sentence, else what the service gave. *)
Definition aligned_entry (u s : str) : result (option tree) :=
  if str_not s then Return None else entry true None u s.

End Vocabulary.

(** What the method can read of a value: a string, a list of what it can
    read of the items, or something else.  A batch is read two levels deep
    (sentences, then tokens). *)
#[local] Unset Elimination Schemes.
Inductive content :=
| CStr (s : str)
| CList (items : list content)
| COther.
#[local] Set Elimination Schemes.

Definition token_content (v : pyval) : content :=
  match v with PStr s => CStr s | _ => COther end.

Definition sentence_content (h : gmap loc pyobj) (v : pyval) : content :=
  match v with
  | PStr s => CStr s
  | PRef l =>
      match h !! l with
      | Some (OList items) => CList (token_content <$> items)
      | _ => COther
      end
  | _ => COther
  end.

Definition batch_content (h : gmap loc pyobj) (v : pyval) : content :=
  match v with
  | PStr s => CStr s
  | PRef l =>
      match h !! l with
      | Some (OList items) => CList (sentence_content h <$> items)
      | _ => COther
      end
  | _ => COther
  end.

(** Two computations agree when, from states with the same heap, they end
    in states with the same heap and give the same outcome, whatever the
    request logs were. *)
Definition agree {A} (m1 m2 : M A) : Prop :=
  ∀ st1 st2, heap st1 = heap st2 →
    heap (fst (run m1 st1)) = heap (fst (run m2 st2))
    ∧ snd (run m1 st1) = snd (run m2 st2).

(** Two environments that answer alike. *)
Definition same_answers {json tree} (env1 env2 : Environment json tree) : Prop :=
  (∀ d, @from_json _ _ env1 d = @from_json _ _ env2 d)
  ∧ (∀ s, @urlencode _ _ env1 s = @urlencode _ _ env2 s)
  ∧ (∀ url, @urlopen _ _ env1 url = @urlopen _ _ env2 url).

(** * Proofs *)

(** ** Strings *)

Lemma proper_token_spec t :
  proper_token t = true ↔ t ≠ [] ∧ Forall (λ c, isspace c = false) t.
Proof.
  unfold proper_token. rewrite andb_true_iff, negb_true_iff, forallb_forall.
  rewrite Forall_forall. setoid_rewrite negb_true_iff.
  setoid_rewrite <- list_elem_of_In.
  destruct t; simpl; intuition congruence.
Qed.

(** Every word [str.split()] returns is non-empty and free of whitespace. *)
Lemma split_from_proper tok s :
  Forall (λ c, isspace c = false) tok →
  Forall (λ w, proper_token w = true) (split_from tok s).
Proof.
  revert tok. induction s as [|c s IH]; intros tok Htok; simpl.
  - destruct tok; constructor; [|constructor].
    apply proper_token_spec. split; [done|exact Htok].
  - destruct (isspace c) eqn:Hc.
    + destruct tok.
      * apply IH. constructor.
      * constructor; [|apply IH; constructor].
        apply proper_token_spec. split; [done|exact Htok].
    + apply IH. apply Forall_app. split; [exact Htok|]. by repeat constructor.
Qed.

Lemma str_split_proper s : Forall (λ w, proper_token w = true) (str_split s).
Proof. apply split_from_proper. constructor. Qed.

(** A string made of whitespace only has no words, and conversely. *)
Lemma split_from_nil tok s :
  split_from tok s = [] ↔ tok = [] ∧ forallb isspace s = true.
Proof.
  revert tok. induction s as [|c s IH]; intros tok; simpl.
  - destruct tok; intuition congruence.
  - destruct (isspace c) eqn:Hc; simpl.
    + destruct tok.
      * apply IH.
      * intuition congruence.
    + rewrite IH. split; [|intuition congruence].
      intros [H _]. by destruct tok.
Qed.

Lemma str_join_nil sep ws :
  Forall (λ w, w ≠ []) ws → str_join sep ws = [] → ws = [].
Proof.
  intros Hws. destruct Hws as [|w ws Hw Hws]; [done|].
  simpl. destruct ws; [done|]. intros H. by destruct w.
Qed.

Lemma collapse_nil s : collapse s = [] ↔ forallb isspace s = true.
Proof.
  unfold collapse, str_split. split.
  - intros H. apply str_join_nil in H.
    + by apply split_from_nil in H as [_ H].
    + eapply Forall_impl; [apply (str_split_proper s)|].
      intros w Hw. by apply proper_token_spec in Hw as [Hw _].
  - intros H. assert (split_from [] s = []) as -> by by apply split_from_nil.
    done.
Qed.

Lemma no_whitespace_run_cons c1 c2 s :
  no_whitespace_run (c1 :: c2 :: s)
  = negb (isspace c1 && isspace c2) && no_whitespace_run (c2 :: s).
Proof. reflexivity. Qed.

Lemma no_whitespace_run_skip c s :
  isspace c = false → no_whitespace_run (c :: s) = no_whitespace_run s.
Proof. intros Hc. destruct s; simpl; [done|]. by rewrite Hc. Qed.

Lemma tidy_collapsed s : tidy s → whitespace_collapsed s = true.
Proof.
  intros [(c & s' & -> & Hc) [Hl Hr]]. unfold whitespace_collapsed.
  simpl head. simpl from_option at 1. rewrite Hc, Hl, Hr. done.
Qed.

Lemma proper_token_tidy w : proper_token w = true → tidy w.
Proof.
  intros [Hne Hw]%proper_token_spec. split; [|split].
  - destruct w as [|c w]; [done|]. exists c, w. split; [done|].
    by inversion Hw.
  - clear Hne. induction Hw as [|c w Hc Hw IH]; [done|].
    destruct w; [exact Hc|]. exact IH.
  - clear Hne. induction Hw as [|c w Hc Hw IH]; [done|].
    simpl. destruct w; [done|]. rewrite Hc. simpl. exact IH.
Qed.

Lemma tidy_glue w r :
  proper_token w = true → tidy r → tidy (w ++ lit " " ++ r).
Proof.
  intros [Hne Hw]%proper_token_spec [(c & r' & -> & Hc) [Hl Hr]].
  split; [|split].
  - destruct w as [|c' w]; [done|]. exists c', (w ++ lit " " ++ c :: r').
    split; [done|]. by inversion Hw.
  - change (lit " ") with [32%N]. rewrite app_assoc.
    rewrite (last_app_cons (w ++ [32%N]) r' c). exact Hl.
  - clear Hne. change (lit " ") with [32%N].
    induction Hw as [|c' w Hc' Hw IH].
    + change ([] ++ [32%N] ++ c :: r') with (32%N :: c :: r').
      rewrite no_whitespace_run_cons, Hc, andb_false_r. exact Hr.
    + change ((c' :: w) ++ [32%N] ++ c :: r') with (c' :: (w ++ [32%N] ++ c :: r')).
      by rewrite no_whitespace_run_skip.
Qed.

(** Words joined with single spaces form a collapsed string. *)
Lemma str_join_tidy ws :
  ws ≠ [] → Forall (λ w, proper_token w = true) ws → tidy (str_join (lit " ") ws).
Proof.
  intros Hne Hws. induction Hws as [|w ws Hw Hws IH]; [done|].
  destruct ws as [|w' ws].
  - simpl. by apply proper_token_tidy.
  - change (str_join (lit " ") (w :: w' :: ws))
      with (w ++ lit " " ++ str_join (lit " ") (w' :: ws)).
    apply tidy_glue; [exact Hw|]. by apply IH.
Qed.

Lemma str_join_collapsed ws :
  Forall (λ w, proper_token w = true) ws →
  whitespace_collapsed (str_join (lit " ") ws) = true.
Proof.
  intros Hws. destruct ws as [|w ws]; [done|].
  apply tidy_collapsed, str_join_tidy; done.
Qed.

Lemma collapse_collapsed s : whitespace_collapsed (collapse s) = true.
Proof. apply str_join_collapsed, str_split_proper. Qed.

(** Splitting a string of words joined with single spaces gives the words
    back, so collapsing keeps the words of a sentence. *)
Lemma split_from_word tok w rest :
  Forall (λ c, isspace c = false) w →
  split_from tok (w ++ rest) = split_from (tok ++ w) rest.
Proof.
  intros Hw. revert tok. induction Hw as [|c w Hc Hw IH]; intros tok; simpl.
  - by rewrite app_nil_r.
  - rewrite Hc, IH. by rewrite <- app_assoc.
Qed.

Lemma str_split_join ws :
  Forall (λ w, proper_token w = true) ws → str_split (str_join (lit " ") ws) = ws.
Proof.
  induction 1 as [|w ws Hw Hws IH]; [done|].
  apply proper_token_spec in Hw as [Hne Hw]. unfold str_split in *.
  destruct ws as [|w' ws].
  - simpl. rewrite <- (app_nil_r w) at 1. rewrite (split_from_word _ _ _ Hw).
    simpl. by destruct w.
  - change (str_join (lit " ") (w :: w' :: ws))
      with (w ++ 32%N :: str_join (lit " ") (w' :: ws)).
    rewrite (split_from_word _ _ _ Hw). simpl app.
    change (split_from w (32%N :: str_join (lit " ") (w' :: ws)))
      with (match w with
            | [] => split_from [] (str_join (lit " ") (w' :: ws))
            | _ => w :: split_from [] (str_join (lit " ") (w' :: ws))
            end).
    rewrite IH. by destruct w.
Qed.

Lemma str_split_collapse s : str_split (collapse s) = str_split s.
Proof. apply str_split_join, str_split_proper. Qed.

Example split_example :
  str_join (lit " ") (str_split (lit "  I   like   tea  ")) = lit "I like tea".
Proof. reflexivity. Qed.

(** ** The type checks decide the shapes *)

Lemma forallb_isinstance_str items :
  forallb isinstance_str items = true ↔ ∃ ss, items = PStr <$> ss.
Proof.
  induction items as [|v items IH]; simpl.
  - split; [by exists []|done].
  - rewrite andb_true_iff, IH. split.
    + intros [Hv [ss ->]]. destruct v; try done. by exists (s :: ss).
    + intros [[|s ss] E]; [done|]. injection E as -> ->. split; [done|by exists ss].
Qed.

Lemma tokenised_sentence_type_check_spec h v :
  tokenised_sentence_type_check h v = true ↔ ∃ ss, holds_str_list h v ss.
Proof.
  unfold tokenised_sentence_type_check, holds_str_list, isinstance_list, items_of.
  split.
  - intros H. destruct v as [| | |l]; try done.
    destruct (h !! l) as [[items|]|] eqn:Hl; try done.
    apply forallb_isinstance_str in H as [ss ->]. by exists ss, l.
  - intros (ss & l & -> & ->). simpl. apply forallb_isinstance_str. by exists ss.
Qed.

Lemma untokenised_batch_type_check_spec h v :
  untokenised_batch_type_check h v = true ↔ matches_flag h v false.
Proof. apply tokenised_sentence_type_check_spec. Qed.

Lemma forallb_sentence_check h items :
  forallb (tokenised_sentence_type_check h) items = true
  ↔ ∃ tss, Forall2 (holds_str_list h) items tss.
Proof.
  induction items as [|v items IH]; simpl.
  - split; [by exists []|done].
  - rewrite andb_true_iff, IH, tokenised_sentence_type_check_spec. split.
    + intros [[ss Hv] [tss Htss]]. exists (ss :: tss). by constructor.
    + intros [tss H]. inversion H as [|? ss ? tss' Hv Hrest]; subst.
      split; [by exists ss|by exists tss'].
Qed.

Lemma tokenised_batch_type_check_spec h v :
  tokenised_batch_type_check h v = true ↔ matches_flag h v true.
Proof.
  unfold tokenised_batch_type_check, matches_flag, holds_token_lists,
    isinstance_list, items_of. split.
  - intros H. destruct v as [| | |l]; try done.
    destruct (h !! l) as [[items|]|] eqn:Hl; try done.
    apply forallb_sentence_check in H as [tss H]. by exists tss, l, items.
  - intros (tss & l & items & -> & -> & H). simpl.
    apply forallb_sentence_check. by exists tss.
Qed.

Lemma normal_forms_matches h v tokenised ns :
  normal_forms h v tokenised ns → matches_flag h v tokenised.
Proof.
  unfold normal_forms, matches_flag. destruct tokenised.
  - intros (tss & H & _). by exists tss.
  - intros (ss & H & _). by exists ss.
Qed.

Lemma matches_normal_forms h v tokenised :
  matches_flag h v tokenised → ∃ ns, normal_forms h v tokenised ns.
Proof.
  unfold normal_forms, matches_flag. destruct tokenised.
  - intros (tss & H). by exists (str_join (lit " ") <$> tss), tss.
  - intros (ss & H). by exists (collapse <$> ss), ss.
Qed.

(** A batch and its normal forms have the same number of sentences. *)
Lemma normal_forms_length h l items tokenised ns :
  h !! l = Some (OList items) →
  normal_forms h (PRef l) tokenised ns → length ns = length items.
Proof.
  intros Hl. unfold normal_forms. destruct tokenised.
  - intros (tss & (l' & items' & E & Hl' & H) & ->). injection E as <-.
    rewrite Hl in Hl'. injection Hl' as <-.
    rewrite length_fmap. symmetry. by eapply Forall2_length.
  - intros (ss & (l' & E & Hl') & ->). injection E as <-.
    rewrite Hl in Hl'. injection Hl' as ->. by rewrite !length_fmap.
Qed.

(** ** Fresh addresses *)

Lemma lookup_insert_fresh (h : gmap loc pyobj) l o x :
  h !! l = Some o → <[fresh (dom h) := x]> h !! l = Some o.
Proof.
  intros Hl. rewrite lookup_insert_ne; [done|].
  intros E. apply (is_fresh (dom h)). rewrite E. apply elem_of_dom. by eexists.
Qed.

(** ** Running the pieces *)

Lemma run_bind {A B} (m : M A) (f : A → M B) st :
  run (m ≫= f) st
  = match run m st with
    | (st', Return a) => run (f a) st'
    | (st', Raise e) => (st', Raise e)
    end.
Proof. reflexivity. Qed.

#[global] Instance PStr_inj : Inj (=) (=) PStr.
Proof. by intros s1 s2 [=]. Qed.

Lemma map_result_as_str ss : map_result as_str (PStr <$> ss) = Return ss.
Proof.
  induction ss as [|s ss IH]; [done|].
  rewrite fmap_cons. cbn [map_result as_str]. by rewrite IH.
Qed.

Lemma lift_run {A} (r : result A) st : run (lift r) st = (st, r).
Proof. reflexivity. Qed.

Lemma py_join_strs sep ss : py_join sep (PStr <$> ss) = Return (str_join sep ss).
Proof. unfold py_join. by rewrite map_result_as_str. Qed.

Lemma get_list_run st l items :
  heap st !! l = Some (OList items) → run (get_list (PRef l)) st = (st, Return items).
Proof. intros H. unfold run, get_list. by rewrite H. Qed.

Lemma get_str_list_run st l ss :
  heap st !! l = Some (OList (PStr <$> ss)) →
  run (get_str_list (PRef l)) st = (st, Return ss).
Proof.
  intros H. unfold get_str_list. rewrite run_bind, (get_list_run _ _ _ H).
  by rewrite lift_run, map_result_as_str.
Qed.

Lemma join_tokens_run st items tss :
  Forall2 (holds_str_list (heap st)) items tss →
  run (map_M (λ sentence, toks ← get_list sentence; lift (py_join (lit " ") toks)) items) st
  = (st, Return (str_join (lit " ") <$> tss)).
Proof.
  induction 1 as [|v ss items tss (l & -> & Hl) _ IH]; [done|].
  cbn [map_M]. rewrite !run_bind, (get_list_run _ _ _ Hl).
  rewrite lift_run, py_join_strs, run_bind, IH. done.
Qed.

(** On a batch of the right shape, lines 90-102 bind [sentences] to a new
    list object holding the normal forms, and touch nothing else. *)
Lemma normalise_batch_run st v tokenised ns :
  normal_forms (heap st) v tokenised ns →
  run (normalise_batch v tokenised) st
  = (State (<[fresh (dom (heap st)) := OList (PStr <$> ns)]> (heap st)) (requests st),
     Return (PRef (fresh (dom (heap st))))).
Proof.
  intros Hns. pose proof (normal_forms_matches _ _ _ _ Hns) as Hm.
  unfold normalise_batch. rewrite run_bind. unfold run at 1, get_heap.
  destruct tokenised.
  - apply tokenised_batch_type_check_spec in Hm. rewrite Hm. simpl negb. cbv iota.
    destruct Hns as (tss & (l & items & -> & Hl & Hitems) & ->).
    rewrite run_bind, (get_list_run _ _ _ Hl).
    rewrite run_bind, (join_tokens_run _ _ _ Hitems). done.
  - apply untokenised_batch_type_check_spec in Hm. rewrite Hm. simpl negb. cbv iota.
    destruct Hns as (ss & (l & -> & Hl) & ->).
    rewrite run_bind, (get_list_run _ _ _ Hl).
    rewrite run_bind, lift_run. unfold py_str. rewrite map_result_as_str.
    unfold collapse. by rewrite <- list_fmap_compose.
Qed.

(** On a batch of the wrong shape they raise and change nothing. *)
Lemma normalise_batch_reject st v tokenised :
  ¬ matches_flag (heap st) v tokenised →
  run (normalise_batch v tokenised) st
  = (st, Raise (ValueError (if tokenised then tokenised_message
                            else untokenised_message))).
Proof.
  intros Hm. unfold normalise_batch. rewrite run_bind. unfold run at 1, get_heap.
  destruct tokenised.
  - rewrite <- tokenised_batch_type_check_spec in Hm.
    apply not_true_is_false in Hm. by rewrite Hm.
  - rewrite <- untokenised_batch_type_check_spec in Hm.
    apply not_true_is_false in Hm. by rewrite Hm.
Qed.

(** ** The blank scan *)

Lemma blank_loop_return suppress i ns acc sv bl sv' :
  blank_loop suppress i ns acc sv = Return (bl, sv') →
  bl = acc ++ blank_indices i ns ∧ sv' = from_option Some sv (last ns).
Proof.
  revert i acc sv. induction ns as [|s ns IH]; intros i acc sv; simpl.
  - intros [= <- <-]. by rewrite app_nil_r.
  - assert (from_option Some (Some s) (last ns)
            = from_option Some sv (last (s :: ns))) as Hlast.
    { destruct ns as [|s' ns]; [done|]. rewrite last_cons_cons.
      destruct (last (s' :: ns)) eqn:E; [done|]. by apply last_None in E. }
    destruct (str_not s).
    + destruct suppress; [|done]. intros H. apply IH in H as [-> ->].
      by rewrite <- app_assoc.
    + intros H. by apply IH in H as [-> ->].
Qed.

Lemma blank_loop_suppressed i ns acc sv :
  blank_loop true i ns acc sv
  = Return (acc ++ blank_indices i ns, from_option Some sv (last ns)).
Proof.
  destruct (blank_loop true i ns acc sv) as [[bl sv']|e] eqn:E.
  - by apply blank_loop_return in E as [-> ->].
  - exfalso. revert i acc sv E. induction ns as [|s ns IH]; intros i acc sv; simpl; [done|].
    destruct (str_not s); apply IH.
Qed.

(** Without suppression the scan stops at the first blank sentence and
    reports its index. *)
Lemma blank_loop_first_blank i pre post acc sv :
  Forall (λ s, s ≠ []) pre →
  blank_loop false i (pre ++ [] :: post) acc sv
  = Raise (ValueError (blank_message (i + length pre))).
Proof.
  intros Hpre. revert i sv. induction Hpre as [|s pre Hs Hpre IH]; intros i sv; simpl.
  - by rewrite Nat.add_0_r.
  - destruct s; [done|]. simpl. rewrite IH. by rewrite Nat.add_succ_r.
Qed.

Lemma blank_loop_raise suppress i ns acc sv e :
  blank_loop suppress i ns acc sv = Raise e →
  suppress = false
  ∧ ∃ pre post, ns = pre ++ [] :: post ∧ Forall (λ s, s ≠ []) pre
                ∧ e = ValueError (blank_message (i + length pre)).
Proof.
  destruct suppress; [by rewrite blank_loop_suppressed|].
  intros H. split; [done|]. revert i acc sv H.
  induction ns as [|s ns IH]; intros i acc sv; simpl; [done|].
  destruct s as [|c s]; simpl.
  - intros [= <-]. exists [], ns. by rewrite Nat.add_0_r.
  - intros H. apply IH in H as (pre & post & -> & Hpre & ->).
    exists ((c :: s) :: pre), post. split; [done|]. split; [by constructor|].
    simpl. by rewrite Nat.add_succ_r.
Qed.

Lemma blank_loop_clean i ns acc sv :
  Forall (λ s, s ≠ []) ns →
  blank_loop false i ns acc sv = Return (acc, from_option Some sv (last ns)).
Proof.
  intros Hns.
  destruct (blank_loop false i ns acc sv) as [[bl sv']|e] eqn:E.
  - apply blank_loop_return in E as [-> ->]. f_equal. f_equal.
    rewrite <- (app_nil_r acc) at 2. f_equal.
    revert i. induction Hns as [|s ns Hs Hns IH]; intros i; simpl; [done|].
    destruct s; [done|]. apply IH.
  - apply blank_loop_raise in E as (_ & pre & post & -> & _ & _).
    apply Forall_app in Hns as [_ Hns]. by inversion Hns.
Qed.

Lemma nonblank_clean ns : Forall (λ s, s ≠ []) ns → nonblank ns = ns.
Proof.
  induction 1 as [|s ns Hs Hns IH]; simpl; [done|].
  destruct s; [done|]. simpl. by rewrite IH.
Qed.

Lemma blank_indices_length i ns :
  length (blank_indices i ns) + length (nonblank ns) = length ns.
Proof.
  revert i. induction ns as [|s ns IH]; intros i; simpl; [done|].
  destruct (str_not s); simpl; rewrite <- (IH (S i)); lia.
Qed.

Lemma nonblank_no_blank ns : blank_indices 0 ns = [] → nonblank ns = ns.
Proof.
  generalize 0. induction ns as [|s ns IH]; intros i; simpl; [done|].
  destruct (str_not s); simpl; [done|]. intros H. by rewrite (IH _ H).
Qed.

Lemma nonblank_spec ns s : s ∈ nonblank ns ↔ s ∈ ns ∧ s ≠ [].
Proof.
  unfold nonblank. rewrite !list_elem_of_In, filter_In.
  destruct s; simpl; intuition congruence.
Qed.

(** ** Deleting the blank sentences *)

Lemma del_loop_app v a b st :
  run (del_loop v (a ++ b)) st
  = match run (del_loop v a) st with
    | (st', Return _) => run (del_loop v b) st'
    | (st', Raise e) => (st', Raise e)
    end.
Proof.
  revert st. induction a as [|i a IH]; intros st; [done|].
  simpl. rewrite !run_bind. destruct (run (del_item v i) st) as [st' [[]|e]]; [|done].
  apply IH.
Qed.

Lemma del_item_run st l items i :
  heap st !! l = Some (OList items) → i < length items →
  run (del_item (PRef l) i) st
  = (State (<[l:=OList (delete i items)]> (heap st)) (requests st), Return ()).
Proof.
  intros Hl Hi. unfold run, del_item. rewrite Hl. by rewrite decide_True.
Qed.

Lemma delete_middle {A} (pre : list A) x post : delete (length pre) (pre ++ x :: post) = pre ++ post.
Proof. induction pre as [|y pre IH]; simpl; [done|]. by rewrite IH. Qed.

(** Deleting the blank positions from the back leaves the non-blank
    sentences, in order, in the same list object. *)
Lemma del_loop_run st l pre ns :
  heap st !! l = Some (OList (PStr <$> pre ++ ns)) →
  run (del_loop (PRef l) (rev (blank_indices (length pre) ns))) st
  = (State (<[l:=OList (PStr <$> pre ++ nonblank ns)]> (heap st)) (requests st),
     Return ()).
Proof.
  revert pre st. induction ns as [|s ns IH]; intros pre st Hl.
  - simpl. unfold run, mret, M_ret. rewrite insert_id by done. by destruct st.
  - assert (pre ++ s :: ns = (pre ++ [s]) ++ ns) as E by by rewrite <- app_assoc.
    rewrite E in Hl. apply IH in Hl. rewrite length_app in Hl. simpl in Hl.
    rewrite Nat.add_1_r in Hl. simpl. destruct (str_not s) eqn:Hs.
    + simpl. rewrite del_loop_app, Hl. simpl del_loop. rewrite run_bind.
      erewrite del_item_run; cycle 1.
      * simpl. apply lookup_insert_eq.
      * rewrite length_fmap, !length_app. simpl. lia.
      * simpl. rewrite insert_insert_eq. rewrite <- app_assoc. simpl.
        rewrite fmap_app, fmap_cons.
        rewrite <- (length_fmap PStr pre) at 1. rewrite delete_middle.
        by rewrite fmap_app.
    + simpl. rewrite Hl. by rewrite <- app_assoc.
Qed.

(** ** Putting the placeholders back *)

Lemma py_insert_middle {A} (pre post : list A) x :
  py_insert (length pre) x (pre ++ post) = (pre ++ [x]) ++ post.
Proof.
  unfold py_insert. rewrite take_app_length, drop_app_length.
  by rewrite <- app_assoc.
Qed.

(** Inserting [None] at the recorded indices, in increasing order, puts
    every entry back at the position of its sentence. *)
Lemma insert_loop_realign {A} (pre : list (option A)) ns ts :
  length ts = length (nonblank ns) →
  insert_loop (blank_indices (length pre) ns) (pre ++ ts) = pre ++ realign ns ts.
Proof.
  revert pre ts. induction ns as [|s ns IH]; intros pre ts Hlen; simpl in *.
  - destruct ts; [done|discriminate].
  - destruct (str_not s); simpl in *.
    + unfold insert_loop in *. simpl. rewrite py_insert_middle.
      specialize (IH (pre ++ [None]) ts Hlen).
      rewrite length_app, Nat.add_1_r in IH. simpl in IH. rewrite IH.
      by rewrite <- app_assoc.
    + destruct ts as [|t ts]; [discriminate|]. injection Hlen as Hlen.
      specialize (IH (pre ++ [t]) ts Hlen).
      rewrite length_app, Nat.add_1_r in IH. simpl in IH.
      rewrite <- app_assoc in IH. simpl in IH. rewrite IH.
      by rewrite <- app_assoc.
Qed.

Lemma realign_length {A} ns (ts : list (option A)) :
  length ts = length (nonblank ns) → length (realign ns ts) = length ns.
Proof.
  revert ts. induction ns as [|s ns IH]; intros ts Hlen; simpl in *; [done|].
  destruct (str_not s); simpl in *.
  - by rewrite IH.
  - destruct ts; [discriminate|]. injection Hlen as Hlen. simpl. by rewrite IH.
Qed.

Lemma map_result_length {A B} (f : A → result B) l r :
  map_result f l = Return r → length r = length l.
Proof.
  revert r. induction l as [|x l IH]; intros r; simpl.
  - by intros [= <-].
  - destruct (f x); [|done]. destruct (map_result f l); [|done].
    intros [= <-]. simpl. by rewrite (IH _ eq_refl).
Qed.

Lemma map_result_lookup {A B} (f : A → result B) l r i x :
  map_result f l = Return r → l !! i = Some x →
  ∃ y, f x = Return y ∧ r !! i = Some y.
Proof.
  revert r i. induction l as [|x' l IH]; intros r i; simpl; [done|].
  destruct (f x') as [y'|] eqn:Hx'; [|done].
  destruct (map_result f l) as [ys|]; [|done].
  intros [= <-]. destruct i as [|i]; simpl.
  - intros [= <-]. by exists y'.
  - by apply IH.
Qed.

Lemma map_result_ext {A B} (f g : A → result B) l :
  (∀ x, f x = g x) → map_result f l = map_result g l.
Proof.
  intros Hfg. induction l as [|x l IH]; simpl; [done|]. by rewrite Hfg, IH.
Qed.

Lemma map_result_total {A B} (f : A → result B) l :
  (∀ x, x ∈ l → ∃ y, f x = Return y) → ∃ r, map_result f l = Return r.
Proof.
  induction l as [|x l IH]; intros Hall; simpl; [by eexists|].
  destruct (Hall x) as [y ->]; [by left|].
  destruct IH as [r ->]; [|by eexists].
  intros x' Hx'. apply Hall. by right.
Qed.


(** Mapping over the whole batch with [None] at the blanks is mapping over
    the non-blank sentences and realigning. *)
Lemma map_result_realign {A} (f : str → result (option A)) ns :
  map_result (λ s, if str_not s then Return None else f s) ns
  = match map_result f (nonblank ns) with
    | Return ts => Return (realign ns ts)
    | Raise e => Raise e
    end.
Proof.
  induction ns as [|s ns IH]; simpl; [done|].
  destruct (str_not s); simpl.
  - rewrite IH. by destruct (map_result f (nonblank ns)).
  - destruct (f s); [|done]. rewrite IH.
    by destruct (map_result f (nonblank ns)).
Qed.

(** ** The request loop *)

Section RequestLoop.
Context {json tree : Type} {env : Environment json tree}.

Lemma get_service_url_run st self u :
  heap st !! self = Some (OWebParser u) →
  run (get_service_url self) st = (st, Return u).
Proof. intros H. unfold run, get_service_url. by rewrite H. Qed.

Lemma http_get_run st url :
  run (http_get url) st
  = (State (heap st) (requests st ++ [url]), Return (urlopen url)).
Proof. reflexivity. Qed.

Lemma get_service_url_read st self :
  run (get_service_url self) st
  = (st, match heap st !! self with
         | Some (OWebParser u) => Return u
         | _ => Raise AttributeError
         end).
Proof.
  unfold run, get_service_url. by destruct (heap st !! self) as [[|u]|].
Qed.

(** One round: nothing is requested when the URL cannot be built, else
    exactly one request is logged and the round yields [entry]. *)
Lemma parse_one_run st self u suppress sv s :
  heap st !! self = Some (OWebParser u) →
  run (parse_one self suppress sv s) st
  = match request_url u s with
    | Raise e => (st, Raise e)
    | Return url =>
        (State (heap st) (requests st ++ [url]), entry suppress sv u s)
    end.
Proof.
  intros Hself. unfold parse_one, entry, request_url.
  rewrite run_bind, lift_run. destruct (urlencode s) as [params|e]; [|done].
  rewrite run_bind, (get_service_url_run _ _ _ Hself).
  rewrite run_bind, http_get_run.
  destruct (urlopen (u ++ lit "?" ++ params)) as [data|code|e].
  - rewrite run_bind, lift_run. by destruct (from_json data).
  - destruct suppress; [done|]. by destruct sv.
  - by destruct suppress.
Qed.

(** With suppression the left-over variable plays no part. *)
Lemma entry_suppressed sv u s : entry true sv u s = entry true None u s.
Proof. reflexivity. Qed.

(** An entry that holds a tree does not depend on the flags. *)
Lemma entry_tree suppress sv suppress' sv' u s t :
  entry suppress sv u s = Return (Some t) →
  entry suppress' sv' u s = Return (Some t).
Proof.
  unfold entry. destruct (request_url u s) as [url|]; [|done].
  destruct (urlopen url) as [data|code|e]; [done| |].
  - by destruct suppress.
  - by destruct suppress.
Qed.



(** The request loop never touches the heap. *)
Lemma parse_one_heap st self suppress sv s :
  heap (fst (run (parse_one self suppress sv s) st)) = heap st.
Proof.
  unfold parse_one. rewrite run_bind, lift_run.
  destruct (urlencode s) as [params|e]; [|done].
  rewrite run_bind, get_service_url_read.
  destruct (heap st !! self) as [[|u]|]; try done.
  rewrite run_bind, http_get_run.
  destruct (urlopen (u ++ lit "?" ++ params)) as [data|code|e].
  - rewrite run_bind, lift_run. by destruct (from_json data).
  - destruct suppress; [done|]. by destruct sv.
  - by destruct suppress.
Qed.

Lemma parse_loop_heap st self suppress sv sents acc :
  heap (fst (run (parse_loop self suppress sv sents acc) st)) = heap st.
Proof.
  revert st acc. induction sents as [|s sents IH]; intros st acc; [done|].
  cbn [parse_loop]. rewrite run_bind.
  pose proof (parse_one_heap st self suppress sv s) as H1.
  destruct (run (parse_one self suppress sv s) st) as [st1 [t|e]]; [|exact H1].
  rewrite IH. exact H1.
Qed.

(** When the loop finishes it has added one entry per sentence. *)
Lemma parse_loop_length st self suppress sv sents acc st' r :
  run (parse_loop self suppress sv sents acc) st = (st', Return r) →
  length r = length acc + length sents.
Proof.
  revert st acc. induction sents as [|s sents IH]; intros st acc.
  - intros [= _ <-]. simpl. lia.
  - cbn [parse_loop]. rewrite run_bind.
    destruct (run (parse_one self suppress sv s) st) as [st1 [t|e]]; [|done].
    intros H. apply IH in H. rewrite length_app in H. simpl in *. lia.
Qed.

(** The loop as a whole: its outcome is the sentence-wise [entry], and it
    has logged the URLs of the sentences it got to, in order. *)
Lemma parse_loop_run st self u suppress sv sents acc :
  heap st !! self = Some (OWebParser u) →
  ∃ sent rest new,
    sents = sent ++ rest
    ∧ map_result (request_url u) sent = Return new
    ∧ run (parse_loop self suppress sv sents acc) st
      = (State (heap st) (requests st ++ new),
         match map_result (entry suppress sv u) sents with
         | Return ts => Return (acc ++ ts)
         | Raise e => Raise e
         end)
    ∧ (∀ ts, map_result (entry suppress sv u) sents = Return ts → rest = []).
Proof.
  revert st acc. induction sents as [|s sents IH]; intros st acc Hself.
  - exists [], [], []. destruct st. simpl. by rewrite !app_nil_r.
  - cbn [parse_loop map_result]. rewrite run_bind, (parse_one_run _ _ _ _ _ _ Hself).
    destruct (request_url u s) as [url|e] eqn:Hurl.
    + destruct (entry suppress sv u s) as [t|e] eqn:Ht.
      * destruct (IH (State (heap st) (requests st ++ [url])) (acc ++ [t]) Hself)
          as (sent & rest & new & -> & Hnew & -> & Hrest).
        exists (s :: sent), rest, (url :: new). simpl.
        rewrite Hurl, Hnew. repeat split.
        -- rewrite <- !app_assoc. simpl.
           destruct (map_result (entry suppress sv u) (sent ++ rest)); [|done].
           by rewrite <- app_assoc.
        -- intros ts. destruct (map_result (entry suppress sv u) (sent ++ rest));
             [|done]. intros _. by eapply Hrest.
      * exists [s], sents, [url]. simpl. by rewrite Hurl.
    + exists [], (s :: sents), []. rewrite app_nil_r.
      assert (entry suppress sv u s = Raise e) as ->
        by (unfold entry; by rewrite Hurl).
      by destruct st.
Qed.

(** The first sentence whose round raises ends the loop: the sentences
    before it and that one have been requested, no later one. *)
Lemma parse_loop_abort st self u suppress sv pre s post acc ts url e :
  heap st !! self = Some (OWebParser u) →
  map_result (entry suppress sv u) pre = Return ts →
  request_url u s = Return url →
  entry suppress sv u s = Raise e →
  ∃ new, map_result (request_url u) pre = Return new
    ∧ run (parse_loop self suppress sv (pre ++ s :: post) acc) st
      = (State (heap st) (requests st ++ new ++ [url]), Raise e).
Proof.
  intros Hself Hpre Hurl He. revert st acc ts Hself Hpre.
  induction pre as [|p pre IH]; intros st acc ts Hself Hpre.
  - exists []. simpl. cbn [parse_loop]. rewrite run_bind.
    by rewrite (parse_one_run _ _ _ _ _ _ Hself), Hurl, He.
  - simpl in Hpre. destruct (entry suppress sv u p) as [t|] eqn:Ht; [|done].
    destruct (map_result (entry suppress sv u) pre) as [ts'|] eqn:Hts; [|done].
    assert (∃ purl, request_url u p = Return purl) as [purl Hp].
    { unfold entry in Ht. destruct (request_url u p); [by eexists|done]. }
    destruct (IH (State (heap st) (requests st ++ [purl])) (acc ++ [t]) ts' Hself eq_refl)
      as (new & Hnew & Hrun).
    exists (purl :: new). simpl. rewrite Hp, Hnew. split; [done|].
    cbn [parse_loop]. rewrite run_bind, (parse_one_run _ _ _ _ _ _ Hself), Hp, Ht.
    rewrite Hrun. simpl. by rewrite <- !app_assoc.
Qed.

End RequestLoop.

(** ** The whole method on a batch of the right shape *)

Section Pipeline.
Context {json tree : Type} {env : Environment json tree}.

Lemma sentences2trees_run st self v suppress tokenised ns :
  normal_forms (heap st) v tokenised ns →
  run (sentences2trees self v suppress tokenised) st
  = match blank_loop suppress 0 ns [] None with
    | Raise e =>
        (State (<[fresh (dom (heap st)) := OList (PStr <$> ns)]> (heap st))
               (requests st), Raise e)
    | Return (_, sv) =>
        match run (parse_loop self suppress sv (nonblank ns) [])
                  (State (<[fresh (dom (heap st)) := OList (PStr <$> nonblank ns)]> (heap st))
                         (requests st)) with
        | (st', Return trees) => (st', Return (realign ns trees))
        | (st', Raise e) => (st', Raise e)
        end
    end.
Proof.
  intros Hns. unfold sentences2trees.
  rewrite run_bind, (normalise_batch_run _ _ _ _ Hns).
  rewrite run_bind. erewrite get_str_list_run by apply lookup_insert_eq.
  rewrite run_bind, lift_run.
  destruct (blank_loop suppress 0 ns [] None) as [[bl sv]|e] eqn:Hbl; [|done].
  apply blank_loop_return in Hbl as [-> _]. simpl app.
  rewrite run_bind.
  rewrite (del_loop_run _ (fresh (dom (heap st))) [] ns) by apply lookup_insert_eq.
  simpl heap. simpl requests. simpl app. rewrite insert_insert_eq.
  rewrite run_bind. erewrite get_str_list_run by apply lookup_insert_eq.
  rewrite run_bind.
  destruct (run (parse_loop self suppress sv (nonblank ns) []) _)
    as [st' [trees|e]] eqn:Hrun; [|done].
  apply parse_loop_length in Hrun. simpl in Hrun.
  pose proof (insert_loop_realign [] ns trees Hrun) as E. simpl in E.
  unfold run, mret, M_ret. by rewrite E.
Qed.

Lemma sentences2trees_reject st self v suppress tokenised :
  ¬ matches_flag (heap st) v tokenised →
  run (sentences2trees self v suppress tokenised) st
  = (st, Raise (ValueError (if tokenised then tokenised_message
                            else untokenised_message))).
Proof.
  intros Hm. unfold sentences2trees.
  by rewrite run_bind, (normalise_batch_reject _ _ _ Hm).
Qed.

Lemma matches_flag_cases h v tokenised :
  matches_flag h v tokenised ∨ ¬ matches_flag h v tokenised.
Proof.
  destruct tokenised.
  - rewrite <- tokenised_batch_type_check_spec.
    destruct (tokenised_batch_type_check h v); [by left|by right].
  - rewrite <- untokenised_batch_type_check_spec.
    destruct (untokenised_batch_type_check h v); [by left|by right].
Qed.

(** The only heap cell the method ever writes is the new list. *)
Lemma sentences2trees_heap st self v suppress tokenised :
  heap (fst (run (sentences2trees self v suppress tokenised) st)) = heap st
  ∨ ∃ items,
      heap (fst (run (sentences2trees self v suppress tokenised) st))
      = <[fresh (dom (heap st)) := OList items]> (heap st).
Proof.
  destruct (matches_flag_cases (heap st) v tokenised) as [Hm|Hm].
  - right. apply matches_normal_forms in Hm as [ns Hns].
    rewrite (sentences2trees_run _ _ _ _ _ _ Hns).
    destruct (blank_loop suppress 0 ns [] None) as [[bl sv]|e].
    + exists (PStr <$> nonblank ns).
      match goal with
      | |- context [run (parse_loop ?a ?b ?c ?d ?e) ?s] =>
          pose proof (parse_loop_heap s a b c d e) as H;
          destruct (run (parse_loop a b c d e) s) as [st' [trees|err]]
      end; exact H.
    + by exists (PStr <$> ns).
  - left. by rewrite (sentences2trees_reject _ _ _ _ _ Hm).
Qed.

(** What the method has requested when it ends: the URLs of the non-blank
    normal forms it got to, in order; all of them when it returns. *)
Lemma sentences2trees_requests st self u v suppress tokenised ns :
  heap st !! self = Some (OWebParser u) →
  normal_forms (heap st) v tokenised ns →
  ∃ sent rest new,
    nonblank ns = sent ++ rest
    ∧ map_result (request_url u) sent = Return new
    ∧ requests (fst (run (sentences2trees self v suppress tokenised) st))
      = requests st ++ new
    ∧ (∀ r, snd (run (sentences2trees self v suppress tokenised) st) = Return r
            → rest = []).
Proof.
  intros Hself Hns. rewrite (sentences2trees_run _ _ _ _ _ _ Hns).
  destruct (blank_loop suppress 0 ns [] None) as [[bl sv]|e].
  - set (st1 := State (<[fresh (dom (heap st)) := OList (PStr <$> nonblank ns)]> (heap st))
                      (requests st)).
    assert (heap st1 !! self = Some (OWebParser u)) as Hself1.
    { by apply lookup_insert_fresh. }
    destruct (parse_loop_run st1 self u suppress sv (nonblank ns) [] Hself1)
      as (sent & rest & new & E & Hnew & Hrun & Hrest).
    exists sent, rest, new. rewrite Hrun. split; [done|]. split; [done|].
    destruct (map_result (entry suppress sv u) (nonblank ns)) as [ts|e] eqn:Hts.
    + split; [done|]. intros _ _. by eapply Hrest.
    + split; [done|]. intros r. done.
  - exists [], (nonblank ns), []. simpl. rewrite app_nil_r. repeat split. done.
Qed.

(** With suppression the outcome is the position-wise map of
    [aligned_entry] over the normal forms. *)
Lemma suppressed_outcome st self u v tokenised ns :
  heap st !! self = Some (OWebParser u) →
  normal_forms (heap st) v tokenised ns →
  snd (run (sentences2trees self v true tokenised) st)
  = map_result (aligned_entry u) ns.
Proof.
  intros Hself Hns.
  rewrite (sentences2trees_run _ _ _ _ _ _ Hns), blank_loop_suppressed.
  set (st1 := State _ _).
  assert (heap st1 !! self = Some (OWebParser u)) as Hself1
    by by apply lookup_insert_fresh.
  destruct (parse_loop_run st1 self u true
              (from_option Some None (last ns)) (nonblank ns) [] Hself1)
    as (sent & rest & new & _ & _ & -> & _).
  unfold aligned_entry. rewrite map_result_realign.
  rewrite (map_result_ext (entry true (from_option Some None (last ns)) u)
             (entry true None u)) by apply entry_suppressed.
  by destruct (map_result (entry true None u) (nonblank ns)).
Qed.

(** Without suppression, and with no blank sentence, the outcome is that
    of the request loop over the whole batch, the left-over variable
    being the last sentence. *)
Lemma strict_run st self v tokenised ns :
  normal_forms (heap st) v tokenised ns →
  Forall (λ s, s ≠ []) ns →
  run (sentences2trees self v false tokenised) st
  = match run (parse_loop self false (last ns) ns [])
              (State (<[fresh (dom (heap st)) := OList (PStr <$> ns)]> (heap st))
                     (requests st)) with
    | (st', Return trees) => (st', Return trees)
    | (st', Raise e) => (st', Raise e)
    end.
Proof.
  intros Hns Hclean.
  rewrite (sentences2trees_run _ _ _ _ _ _ Hns), (blank_loop_clean _ _ _ _ Hclean).
  rewrite (nonblank_clean _ Hclean).
  assert (from_option Some None (last ns) = last ns) as -> by by destruct (last ns).
  destruct (run (parse_loop self false (last ns) ns []) _)
    as [st' [trees|e]] eqn:Hrun; [|done].
  apply parse_loop_length in Hrun. simpl in Hrun.
  f_equal. f_equal. clear -Hrun Hclean. revert trees Hrun.
  induction Hclean as [|s ns Hs Hclean IH]; intros trees Hlen; simpl.
  - by destruct trees.
  - destruct s; [done|]. simpl. destruct trees as [|t trees]; [done|].
    f_equal. apply IH. simpl in Hlen. lia.
Qed.

(** The defect behind C2: the [WebParseError] for an HTTP error status
    carries the last sentence of the batch, whichever sentence was being
    requested. *)
Lemma http_error_reports_last st self u v tokenised pre s post url code z :
  heap st !! self = Some (OWebParser u) →
  normal_forms (heap st) v tokenised (pre ++ s :: post) →
  Forall (λ p, p ≠ []) (pre ++ s :: post) →
  Forall (λ p, ∃ t, entry false None u p = Return (Some t)) pre →
  request_url u s = Return url →
  urlopen url = HTTPError code →
  last (pre ++ s :: post) = Some z →
  snd (run (sentences2trees self v false tokenised) st)
  = Raise (WebParseError z code).
Proof.
  intros Hself Hns Hclean Hpre Hurl Hopen Hlast.
  rewrite (strict_run _ _ _ _ _ Hns Hclean), Hlast.
  set (st1 := State _ _).
  assert (heap st1 !! self = Some (OWebParser u)) as Hself1
    by by apply lookup_insert_fresh.
  assert (∃ ts, map_result (entry false (Some z) u) pre = Return ts) as [ts Hts].
  { apply map_result_total. intros p Hp.
    eapply Forall_forall in Hpre as [t Ht]; [|exact Hp].
    exists (Some t). by eapply entry_tree. }
  assert (entry false (Some z) u s = Raise (WebParseError z code)) as He.
  { unfold entry. by rewrite Hurl, Hopen. }
  destruct (parse_loop_abort st1 self u false (Some z) pre s post [] ts url _
              Hself1 Hts Hurl He) as (new & _ & ->).
  done.
Qed.

End Pipeline.

(** ** The message of the blank-sentence error names one index *)

Lemma ascii_codes_back l : List.map ascii_of_N (List.map N_of_ascii l) = l.
Proof.
  induction l as [|c l IH]; simpl; [done|]. by rewrite ascii_N_embedding, IH.
Qed.

Lemma lit_inj a b : lit a = lit b → a = b.
Proof.
  unfold lit. intros H.
  apply (f_equal (List.map ascii_of_N)) in H. rewrite !ascii_codes_back in H.
  apply (f_equal string_of_list_ascii) in H.
  by rewrite !string_of_list_ascii_of_string in H.
Qed.

Lemma str_of_nat_inj i j : str_of_nat i = str_of_nat j → i = j.
Proof.
  unfold str_of_nat. intros H%lit_inj.
  apply Unsigned.to_uint_inj.
  pose proof (NilEmpty.usu (Nat.to_uint i)) as Hi.
  pose proof (NilEmpty.usu (Nat.to_uint j)) as Hj.
  rewrite H in Hi. rewrite Hi in Hj. by injection Hj.
Qed.

Lemma blank_message_inj i j : blank_message i = blank_message j → i = j.
Proof.
  unfold blank_message. intros H%app_inv_head%app_inv_tail.
  by apply str_of_nat_inj.
Qed.

(** ** Outcomes do not depend on the request log *)

Lemma agree_bind {A B} (m1 m2 : M A) (f1 f2 : A → M B) :
  agree m1 m2 → (∀ a, agree (f1 a) (f2 a)) → agree (m1 ≫= f1) (m2 ≫= f2).
Proof.
  intros Hm Hf st1 st2 Hst. rewrite !run_bind.
  destruct (Hm st1 st2 Hst) as [Hh Hr].
  destruct (run m1 st1) as [st1' r1], (run m2 st2) as [st2' r2].
  simpl in Hh, Hr. subst r2. destruct r1 as [a|e]; [|done].
  by apply Hf.
Qed.

Lemma agree_pure {A} (f : gmap loc pyobj → result A) :
  agree (λ st, (st, f (heap st))) (λ st, (st, f (heap st))).
Proof. intros st1 st2 Hst. unfold run. simpl. by rewrite Hst. Qed.

Lemma agree_ret {A} (a : A) : agree (mret a) (mret a).
Proof. apply (agree_pure (λ _, Return a)). Qed.

Lemma agree_raise {A} e : agree (raise (A:=A) e) (raise e).
Proof. apply (agree_pure (λ _, Raise e)). Qed.

Lemma agree_lift {A} (r : result A) : agree (lift r) (lift r).
Proof. apply (agree_pure (λ _, r)). Qed.

Lemma agree_get_heap : agree get_heap get_heap.
Proof. apply (agree_pure (λ h, Return h)). Qed.

Lemma agree_get_list v : agree (get_list v) (get_list v).
Proof.
  intros st1 st2 Hst. unfold run, get_list. rewrite Hst.
  destruct v as [| | |l]; try done. by destruct (heap st2 !! l) as [[|]|].
Qed.

Lemma agree_get_service_url self : agree (get_service_url self) (get_service_url self).
Proof.
  intros st1 st2 Hst. unfold run, get_service_url. rewrite Hst.
  by destruct (heap st2 !! self) as [[|]|].
Qed.

Lemma agree_alloc o : agree (alloc o) (alloc o).
Proof. intros st1 st2 Hst. unfold run, alloc. simpl. by rewrite Hst. Qed.

Lemma agree_del_item v i : agree (del_item v i) (del_item v i).
Proof.
  intros st1 st2 Hst. unfold run, del_item. rewrite Hst.
  destruct v as [| | |l]; try done.
  destruct (heap st2 !! l) as [[items|]|]; try done. by case_decide.
Qed.

Lemma agree_del_loop v indices : agree (del_loop v indices) (del_loop v indices).
Proof.
  induction indices as [|i indices IH]; simpl; [apply agree_ret|].
  apply agree_bind; [apply agree_del_item|]. intros _. exact IH.
Qed.

Lemma agree_map_M {A B} (f : A → M B) l :
  (∀ x, agree (f x) (f x)) → agree (map_M f l) (map_M f l).
Proof.
  intros Hf. induction l as [|x l IH]; simpl; [apply agree_ret|].
  apply agree_bind; [apply Hf|]. intros y.
  apply agree_bind; [exact IH|]. intros ys. apply agree_ret.
Qed.

Lemma agree_get_str_list v : agree (get_str_list v) (get_str_list v).
Proof.
  apply agree_bind; [apply agree_get_list|]. intros items. apply agree_lift.
Qed.

Lemma agree_normalise_batch v tokenised :
  agree (normalise_batch v tokenised) (normalise_batch v tokenised).
Proof.
  apply agree_bind; [apply agree_get_heap|]. intros h. destruct tokenised.
  - destruct (negb (tokenised_batch_type_check h v)); [apply agree_raise|].
    apply agree_bind; [apply agree_get_list|]. intros items.
    apply agree_bind.
    + apply agree_map_M. intros sentence.
      apply agree_bind; [apply agree_get_list|]. intros toks. apply agree_lift.
    + intros joined. apply agree_bind; [apply agree_alloc|]. intros l.
      apply agree_ret.
  - destruct (negb (untokenised_batch_type_check h v)); [apply agree_raise|].
    apply agree_bind; [apply agree_get_list|]. intros items.
    apply agree_bind; [apply agree_lift|]. intros sent_list.
    apply agree_bind; [apply agree_alloc|]. intros l. apply agree_ret.
Qed.

Section SameAnswers.
Context {json tree : Type} (env1 env2 : Environment json tree).
Hypothesis Hsame : same_answers env1 env2.

Lemma agree_http_get url : agree (http_get (env:=env1) url) (http_get (env:=env2) url).
Proof using Hsame.
  intros st1 st2 Hst. unfold run, http_get. simpl.
  destruct Hsame as (_ & _ & Hopen). by rewrite Hopen.
Qed.

Lemma agree_parse_one self suppress sv s :
  agree (parse_one (env:=env1) self suppress sv s)
        (parse_one (env:=env2) self suppress sv s).
Proof using Hsame.
  unfold parse_one. destruct Hsame as (Hjson & Hencode & _).
  rewrite Hencode. apply agree_bind; [apply agree_lift|]. intros params.
  apply agree_bind; [apply agree_get_service_url|]. intros service_url.
  apply agree_bind; [apply agree_http_get|]. intros [data|code|e].
  - rewrite Hjson. apply agree_bind; [apply agree_lift|]. intros t.
    apply agree_ret.
  - destruct suppress; [apply agree_ret|]. destruct sv; apply agree_raise.
  - destruct suppress; [apply agree_ret|apply agree_raise].
Qed.

Lemma agree_parse_loop self suppress sv sents acc :
  agree (parse_loop (env:=env1) self suppress sv sents acc)
        (parse_loop (env:=env2) self suppress sv sents acc).
Proof using Hsame.
  revert acc. induction sents as [|s sents IH]; intros acc; simpl.
  - apply agree_ret.
  - apply agree_bind; [apply agree_parse_one|]. intros t. apply IH.
Qed.

Lemma agree_sentences2trees self v suppress tokenised :
  agree (sentences2trees (env:=env1) self v suppress tokenised)
        (sentences2trees (env:=env2) self v suppress tokenised).
Proof using Hsame.
  unfold sentences2trees.
  apply agree_bind; [apply agree_normalise_batch|]. intros sentences.
  apply agree_bind; [apply agree_get_str_list|]. intros items.
  apply agree_bind; [apply agree_lift|]. intros [empty_indices sentence].
  apply agree_bind; [apply agree_del_loop|]. intros _.
  apply agree_bind; [apply agree_get_str_list|]. intros sents.
  apply agree_bind; [apply agree_parse_loop|]. intros trees.
  apply agree_ret.
Qed.

End SameAnswers.

(** * The claims *)

Section Claims.
Context {json tree : Type} {env : Environment json tree}.

(** C1.  Whenever [sentences2trees] returns, the list it returns is as
    long as the batch it was given, whatever the flags and however many
    sentences were blank or failed. *)
Theorem returned_length_is_batch_length st self l items suppress tokenised st' r :
  heap st !! l = Some (OList items) →
  run (sentences2trees self (PRef l) suppress tokenised) st = (st', Return r) →
  length r = length items.
Proof.
  intros Hl Hrun.
  destruct (matches_flag_cases (heap st) (PRef l) tokenised) as [Hm|Hm];
    [|by rewrite (sentences2trees_reject _ _ _ _ _ Hm) in Hrun].
  apply matches_normal_forms in Hm as [ns Hns].
  rewrite <- (normal_forms_length _ _ _ _ _ Hl Hns).
  rewrite (sentences2trees_run _ _ _ _ _ _ Hns) in Hrun.
  destruct (blank_loop suppress 0 ns [] None) as [[bl sv]|e]; [|done].
  destruct (run (parse_loop self suppress sv (nonblank ns) []) _)
    as [st1 [trees|e]] eqn:Hloop; [|done].
  injection Hrun as _ <-. apply parse_loop_length in Hloop.
  by apply realign_length.
Qed.

(** C3.  Without suppression, a batch with a blank normal form makes the
    call raise the [ValueError] whose message carries the index of the
    first blank one, an index no other such message carries, and no
    request has been issued. *)
Theorem first_blank_sentence_raises st self v tokenised pre post :
  normal_forms (heap st) v tokenised (pre ++ [] :: post) →
  Forall (λ s, s ≠ []) pre →
  (∃ st', run (sentences2trees self v false tokenised) st
          = (st', Raise (ValueError (blank_message (length pre))))
          ∧ requests st' = requests st)
  ∧ ∀ j, blank_message j = blank_message (length pre) → j = length pre.
Proof.
  intros Hns Hpre. split; [|intros j; apply blank_message_inj].
  rewrite (sentences2trees_run _ _ _ _ _ _ Hns).
  rewrite (blank_loop_first_blank 0 pre post [] None Hpre). simpl.
  by eexists.
Qed.

(** C7.  A batch whose shape does not match [tokenised] makes the call
    raise the [ValueError] of the type check, with either value of
    [suppress_exceptions], and leaves the state, hence the request log,
    as it was. *)
Theorem wrong_shape_raises st self v suppress tokenised :
  ¬ matches_flag (heap st) v tokenised →
  run (sentences2trees self v suppress tokenised) st
  = (st, Raise (ValueError (if tokenised then tokenised_message
                            else untokenised_message))).
Proof. apply sentences2trees_reject. Qed.

(** C10.  Every object that exists when the method is called, the
    caller's batch, the token lists in it and the client with its
    [service_url] among them, is the same when the method ends: if the heap
    changes at all, it is by one list object at an address that was unused,
    the list the method builds before it deletes anything. *)
Theorem existing_objects_unchanged st self v suppress tokenised l o :
  heap st !! l = Some o →
  heap (fst (run (sentences2trees self v suppress tokenised) st)) !! l = Some o
  ∧ (heap (fst (run (sentences2trees self v suppress tokenised) st)) = heap st
     ∨ ∃ items,
         heap (fst (run (sentences2trees self v suppress tokenised) st))
         = <[fresh (dom (heap st)) := OList items]> (heap st)
         ∧ heap st !! fresh (dom (heap st)) = None).
Proof.
  intros Hl.
  destruct (sentences2trees_heap st self v suppress tokenised) as [E|[items E]];
    rewrite E.
  - split; [done|by left].
  - split; [by apply lookup_insert_fresh|]. right. exists items. split; [done|].
    apply not_elem_of_dom, is_fresh.
Qed.

(** C4.  With suppression, every position of a blank normal form holds
    [None] and every other position holds the entry of its own sentence:
    the outcome is the position-wise map of [aligned_entry] over the
    batch, so [""; "hello"] gives [None; tree of "hello"].  The call
    returns whenever no sentence's entry raises, and the requests issued
    are those of non-blank sentences only, in order. *)
Theorem suppressed_blanks_stay_in_place st self u v tokenised ns :
  heap st !! self = Some (OWebParser u) →
  normal_forms (heap st) v tokenised ns →
  snd (run (sentences2trees self v true tokenised) st)
  = map_result (aligned_entry u) ns
  ∧ ((∀ s, s ∈ ns → s ≠ [] → ∃ t, entry true None u s = Return t) →
     ∃ r, snd (run (sentences2trees self v true tokenised) st) = Return r
          ∧ length r = length ns
          ∧ ∀ i, ns !! i = Some [] → r !! i = Some None)
  ∧ ∃ sent rest new,
      nonblank ns = sent ++ rest
      ∧ map_result (request_url u) sent = Return new
      ∧ requests (fst (run (sentences2trees self v true tokenised) st))
        = requests st ++ new
      ∧ (∀ r, snd (run (sentences2trees self v true tokenised) st) = Return r
              → rest = []).
Proof.
  intros Hself Hns.
  pose proof (suppressed_outcome st self u v tokenised ns Hself Hns) as Hout.
  split; [exact Hout|]. split; [|by apply sentences2trees_requests].
  intros Hall. rewrite Hout.
  destruct (map_result (aligned_entry u) ns) as [r|e] eqn:Hr.
  - exists r. split; [done|]. split; [by eapply map_result_length|].
    intros i Hi. destruct (map_result_lookup _ _ _ _ _ Hr Hi) as (y & Hy & ->).
    by injection Hy as <-.
  - destruct (map_result_total (aligned_entry u) ns) as [r Hr']; [|congruence].
    intros s Hs. unfold aligned_entry. destruct s as [|c s]; [by eexists|].
    by apply Hall.
Qed.

(** C5.  Normalisation follows [tokenised]: the list the method works on
    holds each token sequence joined with single spaces, or each plain
    string split on whitespace and rejoined with single spaces
    ([normal_forms]), and the queries it issues are those of these normal
    forms.  A plain string and its normal form have the same words, and the
    normal form has no whitespace at its ends and no whitespace run. *)
Theorem normalisation_follows_flag st self u v suppress tokenised ns :
  heap st !! self = Some (OWebParser u) →
  normal_forms (heap st) v tokenised ns →
  run (normalise_batch v tokenised) st
  = (State (<[fresh (dom (heap st)) := OList (PStr <$> ns)]> (heap st)) (requests st),
     Return (PRef (fresh (dom (heap st)))))
  ∧ (∃ sent rest new,
      nonblank ns = sent ++ rest
      ∧ map_result (request_url u) sent = Return new
      ∧ requests (fst (run (sentences2trees self v suppress tokenised) st))
        = requests st ++ new
      ∧ (∀ r, snd (run (sentences2trees self v suppress tokenised) st) = Return r
              → rest = []))
  ∧ (tokenised = false →
     ∀ ss, holds_str_list (heap st) v ss →
           Forall2 (λ s n, str_split n = str_split s
                           ∧ whitespace_collapsed n = true) ss ns).
Proof.
  intros Hself Hns. split; [|split].
  - by apply normalise_batch_run.
  - by apply sentences2trees_requests.
  - intros -> ss Hss. destruct Hns as (ss' & Hss' & ->).
    destruct Hss as (l & -> & Hl), Hss' as (l' & [= <-] & Hl').
    rewrite Hl in Hl'. injection Hl' as Hl'.
    apply (inj (fmap PStr)) in Hl'. subst ss'.
    apply Forall2_fmap_r, Forall_Forall2_diag, Forall_forall. intros s _.
    split; [apply str_split_collapse|apply collapse_collapsed].
Qed.

(** C6, as the code has it.  Every sentence submitted is non-empty; it
    is whitespace-collapsed for a batch of plain strings, and for a
    tokenised batch whose tokens are all proper (not empty, no whitespace
    inside).  A plain string of whitespace only normalises to the empty
    string, hence is handled as a blank sentence. *)
Theorem submitted_sentences_collapsed st self u v suppress tokenised ns :
  heap st !! self = Some (OWebParser u) →
  normal_forms (heap st) v tokenised ns →
  (tokenised = true →
   ∀ tss, holds_token_lists (heap st) v tss →
          Forall (Forall (λ t, proper_token t = true)) tss) →
  (∃ sent new,
      map_result (request_url u) sent = Return new
      ∧ requests (fst (run (sentences2trees self v suppress tokenised) st))
        = requests st ++ new
      ∧ Forall (λ s, s ≠ [] ∧ whitespace_collapsed s = true) sent)
  ∧ (tokenised = false →
     ∀ ss i s, holds_str_list (heap st) v ss → ss !! i = Some s →
               forallb isspace s = true → ns !! i = Some []).
Proof.
  intros Hself Hns Hproper.
  assert (Forall (λ s, whitespace_collapsed s = true) ns) as Hcollapsed.
  { destruct tokenised.
    - destruct Hns as (tss & Htss & ->).
      specialize (Hproper eq_refl tss Htss).
      apply Forall_fmap. eapply Forall_impl; [exact Hproper|].
      intros ts Hts. by apply str_join_collapsed.
    - destruct Hns as (ss & _ & ->). apply Forall_fmap, Forall_forall.
      intros s _. apply collapse_collapsed. }
  split.
  - destruct (sentences2trees_requests st self u v suppress tokenised ns Hself Hns)
      as (sent & rest & new & E & Hnew & Hreq & _).
    exists sent, new. split; [done|]. split; [done|].
    apply Forall_forall. intros s Hs.
    assert (s ∈ nonblank ns) as [Hin Hne]%nonblank_spec
      by (rewrite E; apply elem_of_app; by left).
    split; [done|]. by eapply Forall_forall in Hcollapsed.
  - intros -> ss i s Hss Hi Hs. destruct Hns as (ss' & Hss' & ->).
    destruct Hss as (l & -> & Hl), Hss' as (l' & [= <-] & Hl').
    rewrite Hl in Hl'. injection Hl' as Hl'.
    apply (inj (fmap PStr)) in Hl'. subst ss'.
    rewrite list_lookup_fmap, Hi. simpl. f_equal. by apply collapse_nil.
Qed.


End Claims.

(** C2 fails on the code.  For the batch ["a"; "b"], with the service
    answering the request for "a" with status 500 and exceptions not
    suppressed, the one request issued is that for "a", and the exception
    raised names "b". *)
Theorem http_error_names_wrong_sentence :
  run (sentences2trees (env:=mock ab_table) 1%positive (PRef 2%positive) false false)
      ab_state
  = (State (<[3%positive := OList [PStr (lit "a"); PStr (lit "b")]]> ab_heap)
           [lit "http://parser.test/tree?sentence=a"],
     Raise (WebParseError (lit "b") 500)).
Proof. vm_compute. reflexivity. Qed.

(** ** The claims at work on the test double *)

Lemma returned_length_is_batch_length_demo :
  heap demo_state !! 2%positive = Some (OList [PStr (lit ""); PStr (lit "hello")])
  ∧ length [None; Some (lit "tree:hello")] = 2.
Proof.
  split; [reflexivity|].
  apply (returned_length_is_batch_length (env:=mock demo_table) demo_state
           1%positive 2%positive [PStr (lit ""); PStr (lit "hello")] true false
           (fst (run (sentences2trees (env:=mock demo_table) 1%positive
                        (PRef 2%positive) true false) demo_state))
           [None; Some (lit "tree:hello")]).
  - reflexivity.
  - vm_compute. reflexivity.
Defined.

Lemma first_blank_sentence_raises_demo :
  (∃ st', run (sentences2trees (env:=mock demo_table) 1%positive (PRef 2%positive)
                 false false) demo_state
          = (st', Raise (ValueError (blank_message 0)))
          ∧ requests st' = [])
  ∧ ∀ j, blank_message j = blank_message 0 → j = 0.
Proof.
  apply (first_blank_sentence_raises (env:=mock demo_table) demo_state 1%positive
           (PRef 2%positive) false [] [lit "hello"]).
  - exists [lit ""; lit "hello"]. split; [|reflexivity].
    exists 2%positive. split; reflexivity.
  - constructor.
Defined.

Lemma wrong_shape_raises_demo :
  run (sentences2trees (env:=mock demo_table) 1%positive (PRef 2%positive) true true)
      demo_state
  = (demo_state, Raise (ValueError tokenised_message)).
Proof.
  apply (wrong_shape_raises (env:=mock demo_table) demo_state 1%positive
           (PRef 2%positive) true true).
  intros H. apply tokenised_batch_type_check_spec in H. vm_compute in H.
  discriminate H.
Defined.

Lemma existing_objects_unchanged_demo :
  heap (fst (run (sentences2trees (env:=mock demo_table) 1%positive (PRef 5%positive)
                    true true) demo_state)) !! 3%positive
  = Some (OList []).
Proof.
  apply (existing_objects_unchanged (env:=mock demo_table) demo_state 1%positive
           (PRef 5%positive) true true 3%positive (OList [])).
  reflexivity.
Defined.

Lemma suppressed_blanks_stay_in_place_demo :
  snd (run (sentences2trees (env:=mock demo_table) 1%positive (PRef 2%positive)
              true false) demo_state)
  = Return [None; Some (lit "tree:hello")].
Proof.
  destruct (suppressed_blanks_stay_in_place (env:=mock demo_table) demo_state
              1%positive demo_url (PRef 2%positive) false [lit ""; lit "hello"])
    as [H _].
  - reflexivity.
  - exists [lit ""; lit "hello"]. split; [|reflexivity].
    exists 2%positive. split; reflexivity.
  - rewrite H. vm_compute. reflexivity.
Defined.

(** The two normalisation examples, seen from the network. *)
Example tokens_query :
  requests (fst (run (sentences2trees (env:=mock tea_table) 1%positive
                        (PRef 3%positive) false true) tea_state))
  = [lit "http://parser.test/tree?sentence=I+like+tea"].
Proof. vm_compute. reflexivity. Qed.

Example plain_string_query :
  requests (fst (run (sentences2trees (env:=mock tea_table) 1%positive
                        (PRef 4%positive) false false) tea_state))
  = [lit "http://parser.test/tree?sentence=I+like+tea"].
Proof. vm_compute. reflexivity. Qed.

Lemma normalisation_follows_flag_demo :
  normal_forms (heap tea_state) (PRef 3%positive) true [lit "I like tea"]
  ∧ normal_forms (heap tea_state) (PRef 4%positive) false [lit "I like tea"]
  ∧ run (normalise_batch (PRef 3%positive) true) tea_state
    = (State (<[5%positive := OList [PStr (lit "I like tea")]]> tea_heap) [],
       Return (PRef 5%positive)).
Proof.
  assert (normal_forms (heap tea_state) (PRef 3%positive) true [lit "I like tea"])
    as Htokens.
  { exists [[lit "I"; lit "like"; lit "tea"]]. split; [|reflexivity].
    exists 3%positive, [PRef 2%positive]. split; [reflexivity|].
    split; [reflexivity|]. constructor; [|constructor].
    exists 2%positive. split; reflexivity. }
  split; [exact Htokens|]. split.
  - exists [lit "  I   like   tea  "]. split; [|reflexivity].
    exists 4%positive. split; reflexivity.
  - destruct (normalisation_follows_flag (env:=mock tea_table) tea_state 1%positive
                demo_url (PRef 3%positive) false true [lit "I like tea"])
      as [H _]; [reflexivity|exact Htokens|].
    rewrite H. reflexivity.
Defined.

Lemma submitted_sentences_collapsed_demo :
  (∃ sent new,
    map_result (request_url (env:=mock tea_table) demo_url) sent = Return new
    ∧ requests (fst (run (sentences2trees (env:=mock tea_table) 1%positive
                            (PRef 3%positive) false true) tea_state))
      = [] ++ new
    ∧ Forall (λ s, s ≠ [] ∧ whitespace_collapsed s = true) sent).
Proof.
  destruct (submitted_sentences_collapsed (env:=mock tea_table) tea_state 1%positive
              demo_url (PRef 3%positive) false true [lit "I like tea"])
    as [H _].
  - reflexivity.
  - exists [[lit "I"; lit "like"; lit "tea"]]. split; [|reflexivity].
    exists 3%positive, [PRef 2%positive]. split; [reflexivity|].
    split; [reflexivity|]. constructor; [|constructor].
    exists 2%positive. split; reflexivity.
  - intros _ tss (l & items & [= <-] & Hl & Hitems).
    vm_compute in Hl. injection Hl as <-.
    inversion Hitems as [|? ts ? tss' (l2 & E & Hl2) Hrest]; subst.
    inversion Hrest; subst. injection E as <-.
    vm_compute in Hl2. injection Hl2 as Hl2.
    destruct ts as [|t1 [|t2 [|t3 [|]]]]; try discriminate Hl2.
    injection Hl2 as <- <- <-. repeat constructor.
  - exact H.
Defined.

(** C6 fails on tokenised input: the token lists [" "] and [" "; "a"] are
    submitted as " " and "  a", neither blank nor collapsed. *)
Lemma tokens_with_whitespace_submitted :
  normal_forms (heap space_state) (PRef 4%positive) true [lit " "; lit "  a"]
  ∧ requests (fst (run (sentences2trees (env:=mock []) 1%positive (PRef 4%positive)
                          true true) space_state))
    = [lit "http://parser.test/tree?sentence=+";
       lit "http://parser.test/tree?sentence=++a"]
  ∧ request_url (env:=mock []) demo_url (lit " ")
    = Return (lit "http://parser.test/tree?sentence=+")
  ∧ request_url (env:=mock []) demo_url (lit "  a")
    = Return (lit "http://parser.test/tree?sentence=++a")
  ∧ whitespace_collapsed (lit " ") = false
  ∧ whitespace_collapsed (lit "  a") = false
  ∧ forallb isspace (lit " ") = true
  ∧ snd (run (sentences2trees (env:=mock []) 1%positive (PRef 4%positive)
                false true) space_state)
    = Raise (LibraryError (lit "URLError")).
Proof.
  split.
  { exists [[lit " "]; [lit " "; lit "a"]]. split; [|reflexivity].
    exists 4%positive, [PRef 2%positive; PRef 3%positive]. split; [reflexivity|].
    split; [reflexivity|]. repeat constructor.
    - exists 2%positive. split; reflexivity.
    - exists 3%positive. split; reflexivity. }
  repeat split; vm_compute; reflexivity.
Qed.

(** Building the tree is not part of the guarded request: when
    [CCGTree.from_json] rejects the document the exception comes out of the
    call even with suppression. *)
Example tree_construction_not_suppressed :
  snd (run (sentences2trees
              (env:=mock [(lit "http://parser.test/tree?sentence=hello", Body [])])
              1%positive (PRef 2%positive) true false) demo_state)
  = Raise (LibraryError (lit "KeyError")).
Proof. vm_compute. reflexivity. Qed.


(** * Further properties of the code *)

(** ** The type checks of [lambeq/core/utils.py] *)

(** [tokenised_batch_type_check] accepts exactly the list objects whose
    items are list objects of strings. *)
Theorem tokenised_batch_type_check_decides h batch :
  tokenised_batch_type_check h batch = true
  ↔ ∃ l items tss, batch = PRef l ∧ h !! l = Some (OList items)
       ∧ Forall2 (λ item ts, ∃ l', item = PRef l'
                                   ∧ h !! l' = Some (OList (PStr <$> ts)))
                 items tss.
Proof.
  rewrite tokenised_batch_type_check_spec. unfold matches_flag, holds_token_lists.
  split.
  - intros (tss & l & items & H). by exists l, items, tss.
  - intros (l & items & tss & H). by exists tss, l, items.
Qed.

(** [untokenised_batch_type_check] accepts exactly the list objects whose
    items are all strings. *)
Theorem untokenised_batch_type_check_decides h sentence :
  untokenised_batch_type_check h sentence = true
  ↔ ∃ l ss, sentence = PRef l ∧ h !! l = Some (OList (PStr <$> ss)).
Proof.
  rewrite untokenised_batch_type_check_spec. unfold matches_flag, holds_str_list.
  split.
  - intros (ss & l & H). by exists l, ss.
  - intros (l & ss & H). by exists ss, l.
Qed.

(** The only value both batch checks accept is the empty list. *)
Theorem both_checks_only_empty_batch h v :
  tokenised_batch_type_check h v && untokenised_batch_type_check h v = true
  ↔ ∃ l, v = PRef l ∧ h !! l = Some (OList []).
Proof.
  rewrite andb_true_iff, tokenised_batch_type_check_spec,
    untokenised_batch_type_check_spec.
  unfold matches_flag, holds_token_lists, holds_str_list. split.
  - intros [(tss & l & items & -> & Hl & Hitems) (ss & l' & [= <-] & Hl')].
    exists l. split; [done|]. rewrite Hl. do 2 f_equal.
    rewrite Hl in Hl'. injection Hl' as ->.
    destruct ss as [|s ss]; [done|]. rewrite fmap_cons in Hitems.
    inversion Hitems as [|? ? ? ? (l2 & E & _)]; subst. discriminate E.
  - intros (l & -> & Hl). split.
    + exists [], l, []. by repeat split.
    + exists [], l. by split.
Qed.

(** ** Lists and the blank scan, continued *)

Lemma map_result_raise {A B} (f : A → result B) l e :
  map_result f l = Raise e → ∃ x, x ∈ l ∧ f x = Raise e.
Proof.
  induction l as [|x l IH]; simpl; [done|].
  destruct (f x) as [y|e'] eqn:Hx.
  - destruct (map_result f l) as [ys|e'']; [done|]. intros [= ->].
    destruct (IH eq_refl) as (x' & Hin & Hx'). exists x'. split; [by right|done].
  - intros [= ->]. exists x. split; [by left|done].
Qed.

Lemma map_result_Forall2 {A B} (f : A → result B) l r :
  map_result f l = Return r → Forall2 (λ x y, f x = Return y) l r.
Proof.
  revert r. induction l as [|x l IH]; intros r; simpl.
  - intros [= <-]. constructor.
  - destruct (f x) as [y|] eqn:Hx; [|done].
    destruct (map_result f l) as [ys|]; [|done].
    intros [= <-]. constructor; [done|]. by apply IH.
Qed.

Lemma blank_loop_strict_return i ns acc sv out :
  blank_loop false i ns acc sv = Return out → Forall (λ s, s ≠ []) ns.
Proof.
  revert i sv. induction ns as [|s ns IH]; intros i sv; simpl; [by constructor|].
  destruct s as [|c s]; simpl; [done|]. intros H. constructor; [done|].
  by eapply IH.
Qed.

Lemma holds_str_list_insert_fresh h v ss o :
  holds_str_list h v ss → holds_str_list (<[fresh (dom h) := o]> h) v ss.
Proof. intros (l & -> & Hl). exists l. split; [done|]. by apply lookup_insert_fresh. Qed.

(** A batch keeps its normal forms when an object is added at an unused
    address. *)
Lemma normal_forms_insert_fresh h v tokenised ns o :
  normal_forms h v tokenised ns →
  normal_forms (<[fresh (dom h) := o]> h) v tokenised ns.
Proof.
  unfold normal_forms. destruct tokenised.
  - intros (tss & (l & items & -> & Hl & Hitems) & ->). exists tss. split; [|done].
    exists l, items. split; [done|]. split; [by apply lookup_insert_fresh|].
    eapply Forall2_impl; [exact Hitems|]. intros item ts.
    apply holds_str_list_insert_fresh.
  - intros (ss & Hss & ->). exists ss. split; [|done].
    by apply holds_str_list_insert_fresh.
Qed.

Section Outcomes.
Context {json tree : Type} {env : Environment json tree}.

(** The outcome of a call on a batch of the right shape, as a function of
    the client's URL and the normal forms alone. *)
Lemma outcome_pure st self u v suppress tokenised ns :
  heap st !! self = Some (OWebParser u) →
  normal_forms (heap st) v tokenised ns →
  snd (run (sentences2trees self v suppress tokenised) st)
  = match blank_loop suppress 0 ns [] None with
    | Raise e => Raise e
    | Return (_, sv) =>
        match map_result (entry suppress sv u) (nonblank ns) with
        | Return ts => Return (realign ns ts)
        | Raise e => Raise e
        end
    end.
Proof.
  intros Hself Hns. rewrite (sentences2trees_run _ _ _ _ _ _ Hns).
  destruct (blank_loop suppress 0 ns [] None) as [[bl sv]|e]; [|done].
  set (st1 := State _ _).
  assert (heap st1 !! self = Some (OWebParser u)) as Hself1
    by by apply lookup_insert_fresh.
  destruct (parse_loop_run st1 self u suppress sv (nonblank ns) [] Hself1)
    as (sent & rest & new & _ & _ & -> & _).
  by destruct (map_result (entry suppress sv u) (nonblank ns)).
Qed.

(** ** [WebParser.sentences2trees], continued *)

(** The empty batch needs no request: the call returns the empty list, with
    either value of each flag, having only built its own empty list. *)
Theorem empty_batch_returns_empty st self l suppress tokenised :
  heap st !! l = Some (OList []) →
  run (sentences2trees self (PRef l) suppress tokenised) st
  = (State (<[fresh (dom (heap st)) := OList []]> (heap st)) (requests st),
     Return []).
Proof.
  intros Hl.
  assert (normal_forms (heap st) (PRef l) tokenised []) as Hns.
  { destruct tokenised.
    - exists []. split; [|done]. exists l, []. by repeat split.
    - exists []. split; [|done]. by exists l. }
  rewrite (sentences2trees_run _ _ _ _ _ _ Hns). by destruct suppress.
Qed.

(** Without suppression a list that is returned holds, at every position,
    what [CCGTree.from_json] returned for the document the service sent in
    answer to the request of that position's sentence. *)
Theorem strict_result_from_documents st self u v tokenised ns st' r :
  heap st !! self = Some (OWebParser u) →
  normal_forms (heap st) v tokenised ns →
  run (sentences2trees self v false tokenised) st = (st', Return r) →
  Forall2 (λ s t, ∃ url data t',
             request_url u s = Return url ∧ urlopen url = Body data
             ∧ from_json data = Return t' ∧ t = Some t') ns r.
Proof.
  intros Hself Hns Hrun.
  assert (Forall (λ s, s ≠ []) ns) as Hclean.
  { rewrite (sentences2trees_run _ _ _ _ _ _ Hns) in Hrun.
    destruct (blank_loop false 0 ns [] None) as [out|e] eqn:Hbl; [|done].
    by eapply blank_loop_strict_return. }
  rewrite (strict_run _ _ _ _ _ Hns Hclean) in Hrun.
  set (st1 := State _ _) in Hrun.
  assert (heap st1 !! self = Some (OWebParser u)) as Hself1
    by by apply lookup_insert_fresh.
  destruct (parse_loop_run st1 self u false (last ns) ns [] Hself1)
    as (sent & rest & new & _ & _ & Hloop & _).
  rewrite Hloop in Hrun.
  destruct (map_result (entry false (last ns) u) ns) as [ts|e] eqn:Hts; [|done].
  injection Hrun as _ <-. simpl.
  apply map_result_Forall2 in Hts.
  eapply Forall2_impl; [exact Hts|]. intros s t. unfold entry.
  destruct (request_url u s) as [url|]; [|done].
  destruct (urlopen url) as [data|code|e] eqn:Hopen; [| |done].
  - destruct (from_json data) as [t'|] eqn:Hjson; [|done].
    intros [= <-]. by exists url, data, t'.
  - by destruct (last ns).
Qed.

(** Where an exception of a call on a well-shaped batch comes from: the
    blank check (without suppression only), [urlencode] or
    [CCGTree.from_json] on a non-blank sentence, or, without suppression
    only, the failed request of a non-blank sentence, an HTTP error status
    being turned into a [WebParseError] with that status. *)
Theorem exceptions_have_an_origin st self u v suppress tokenised ns e :
  heap st !! self = Some (OWebParser u) →
  normal_forms (heap st) v tokenised ns →
  snd (run (sentences2trees self v suppress tokenised) st) = Raise e →
  (suppress = false ∧ ∃ i, ns !! i = Some [] ∧ e = ValueError (blank_message i))
  ∨ ∃ s, s ∈ ns ∧ s ≠ []
      ∧ (urlencode s = Raise e
         ∨ ∃ url, request_url u s = Return url
             ∧ ((∃ data, urlopen url = Body data ∧ from_json data = Raise e)
                ∨ (suppress = false ∧ urlopen url = Failure e)
                ∨ (suppress = false
                   ∧ ∃ code z, urlopen url = HTTPError code
                               ∧ last ns = Some z
                               ∧ e = WebParseError z code))).
Proof.
  intros Hself Hns. rewrite (outcome_pure _ _ _ _ _ _ _ Hself Hns).
  destruct (blank_loop suppress 0 ns [] None) as [[bl sv]|e'] eqn:Hbl.
  - destruct (map_result (entry suppress sv u) (nonblank ns)) as [ts|e'] eqn:Hts;
      [done|].
    intros [= ->]. right.
    apply map_result_raise in Hts as (s & [Hin Hne]%nonblank_spec & Hs).
    exists s. split; [done|]. split; [done|].
    apply blank_loop_return in Hbl as [_ ->].
    unfold entry, request_url in *.
    destruct (urlencode s) as [params|e']; [|left; congruence].
    right. eexists. split; [done|].
    destruct (urlopen (u ++ lit "?" ++ params)) as [data|code|e'] eqn:Hopen.
    + left. exists data. split; [done|].
      destruct (from_json data); [done|congruence].
    + right. right. destruct suppress; [done|]. split; [done|].
      destruct (last ns) as [z|] eqn:Hlast.
      * exists code, z. split; [done|]. split; [done|]. simpl in Hs. congruence.
      * apply last_None in Hlast. subst ns. by apply elem_of_nil in Hin.
    + right. left. destruct suppress; [done|]. split; congruence.
  - intros [= ->]. left.
    apply blank_loop_raise in Hbl as (-> & pre & post & -> & _ & ->).
    split; [done|]. exists (length pre). split; [|done].
    by rewrite list_lookup_middle.
Qed.

(** Without suppression, when the requests before that of [s] succeed and
    the service answers the request of [s] with an HTTP error status, the
    call raises a [WebParseError] whose [error_code] is that status, after
    the requests up to that of [s] and no other.  Its [sentence] is the last
    sentence of the batch. *)
Theorem http_error_status_reported st self u v tokenised pre s post url code :
  heap st !! self = Some (OWebParser u) →
  normal_forms (heap st) v tokenised (pre ++ s :: post) →
  Forall (λ p, p ≠ []) (pre ++ s :: post) →
  Forall (λ p, ∃ t, entry false None u p = Return (Some t)) pre →
  request_url u s = Return url →
  urlopen url = HTTPError code →
  ∃ z new,
    last (pre ++ s :: post) = Some z
    ∧ map_result (request_url u) pre = Return new
    ∧ snd (run (sentences2trees self v false tokenised) st)
      = Raise (WebParseError z code)
    ∧ requests (fst (run (sentences2trees self v false tokenised) st))
      = requests st ++ new ++ [url].
Proof.
  intros Hself Hns Hclean Hpre Hurl Hopen.
  destruct (last (pre ++ s :: post)) as [z|] eqn:Hlast; cycle 1.
  { apply last_None in Hlast. by destruct pre. }
  rewrite (strict_run _ _ _ _ _ Hns Hclean), Hlast.
  set (st1 := State _ _).
  assert (heap st1 !! self = Some (OWebParser u)) as Hself1
    by by apply lookup_insert_fresh.
  assert (∃ ts, map_result (entry false (Some z) u) pre = Return ts) as [ts Hts].
  { apply map_result_total. intros p Hp.
    eapply Forall_forall in Hpre as [t Ht]; [|exact Hp].
    exists (Some t). by eapply entry_tree. }
  assert (entry false (Some z) u s = Raise (WebParseError z code)) as He.
  { unfold entry. by rewrite Hurl, Hopen. }
  destruct (parse_loop_abort st1 self u false (Some z) pre s post [] ts url _
              Hself1 Hts Hurl He) as (new & Hnew & ->).
  by exists z, new.
Qed.

(** Calls do not interfere: the outcome of a call on a well-shaped batch is
    the same after any earlier call of the method as without it.  In
    particular a call repeated on the same batch has the same outcome. *)
Theorem earlier_call_does_not_interfere st self u v1 suppress1 tokenised1
    v2 suppress2 tokenised2 :
  heap st !! self = Some (OWebParser u) →
  matches_flag (heap st) v2 tokenised2 →
  snd (run (sentences2trees self v2 suppress2 tokenised2)
           (fst (run (sentences2trees self v1 suppress1 tokenised1) st)))
  = snd (run (sentences2trees self v2 suppress2 tokenised2) st).
Proof.
  intros Hself [ns Hns]%matches_normal_forms.
  rewrite (outcome_pure st _ _ _ _ _ _ Hself Hns).
  destruct (sentences2trees_heap st self v1 suppress1 tokenised1) as [E|[items E]].
  - apply (outcome_pure _ self u); by rewrite E.
  - apply (outcome_pure _ self u); rewrite E.
    + by apply lookup_insert_fresh.
    + by apply normal_forms_insert_fresh.
Qed.

(** A client built by the constructor sits at a new address, leaves the
    existing objects alone, holds the URL it was given (the default one
    when none is given), and sends every request of a later call there. *)
Theorem constructed_client_uses_its_url st url v suppress tokenised ns :
  normal_forms (heap st) v tokenised ns →
  ∃ self st1,
    run (WebParser_init url) st = (st1, Return self)
    ∧ heap st !! self = None
    ∧ heap st1 !! self = Some (OWebParser (default SERVICE_URL url))
    ∧ (∀ l o, heap st !! l = Some o → heap st1 !! l = Some o)
    ∧ ∃ sent rest new,
        nonblank ns = sent ++ rest
        ∧ map_result (request_url (default SERVICE_URL url)) sent = Return new
        ∧ requests (fst (run (sentences2trees self v suppress tokenised) st1))
          = requests st ++ new.
Proof.
  intros Hns. eexists _, _. split; [reflexivity|]. simpl.
  split; [apply not_elem_of_dom, is_fresh|].
  split; [apply lookup_insert_eq|].
  split; [intros l o; apply lookup_insert_fresh|].
  set (st1 := State _ _).
  destruct (sentences2trees_requests st1 (fresh (dom (heap st)))
              (default SERVICE_URL url) v suppress tokenised ns)
    as (sent & rest & new & E & Hnew & Hreq & _).
  - apply lookup_insert_eq.
  - by apply normal_forms_insert_fresh.
  - by exists sent, rest, new.
Qed.

(** A batch of proper tokens and the batch of the same sentences written
    out as text, tokens separated by single spaces, have the same outcome,
    each under its own value of [tokenised]. *)
Theorem tokens_and_text_agree st self u v v' suppress tss :
  heap st !! self = Some (OWebParser u) →
  holds_token_lists (heap st) v tss →
  Forall (Forall (λ t, proper_token t = true)) tss →
  holds_str_list (heap st) v' (str_join (lit " ") <$> tss) →
  snd (run (sentences2trees self v suppress true) st)
  = snd (run (sentences2trees self v' suppress false) st).
Proof.
  intros Hself Hv Hproper Hv'.
  rewrite (outcome_pure st self u v suppress true (str_join (lit " ") <$> tss))
    by (done || by exists tss).
  rewrite (outcome_pure st self u v' suppress false (str_join (lit " ") <$> tss));
    [done..|].
  exists (str_join (lit " ") <$> tss). split; [done|].
  rewrite <- list_fmap_compose. apply list_fmap_ext.
  intros i ts Hts. simpl. unfold collapse.
  rewrite str_split_join; [done|].
  eapply Forall_lookup_1 in Hproper; [exact Hproper|exact Hts].
Qed.

End Outcomes.

(** ** Normalisation and the error message *)

(** Normalising a plain sentence twice is the same as normalising it once. *)
Theorem collapse_idempotent s : collapse (collapse s) = collapse s.
Proof. unfold collapse at 1. by rewrite str_split_collapse. Qed.

Lemma str_of_Z_inj z1 z2 : str_of_Z z1 = str_of_Z z2 → z1 = z2.
Proof.
  unfold str_of_Z. intros H%lit_inj. apply DecimalZ.to_int_inj.
  pose proof (NilEmpty.isi (Z.to_int z1)) as H1.
  pose proof (NilEmpty.isi (Z.to_int z2)) as H2.
  rewrite H in H1. rewrite H1 in H2. by injection H2.
Qed.

(** The text of a [WebParseError] tells the status code: two errors for the
    same sentence with the same text have the same [error_code]. *)
Theorem WebParseError_str_tells_code repr sentence code1 code2 :
  WebParseError_str repr sentence code1 = WebParseError_str repr sentence code2 →
  code1 = code2.
Proof.
  unfold WebParseError_str. intros H.
  do 3 apply app_inv_head in H. apply app_inv_tail in H.
  by apply str_of_Z_inj.
Qed.

(** ** The content of a batch decides the outcome *)

Lemma fmap_content_strs (f : pyval → content) (items : list pyval) (ss : list str) :
  (∀ v s, f v = CStr s → v = PStr s) →
  f <$> items = CStr <$> ss → items = PStr <$> ss.
Proof.
  intros Hf. revert ss. induction items as [|v items IH]; intros [|s ss] H;
    try done.
  rewrite !fmap_cons in H. injection H as Hv H.
  rewrite fmap_cons. f_equal; [by apply Hf|by apply IH].
Qed.

Lemma token_content_str v s : token_content v = CStr s → v = PStr s.
Proof. destruct v; simpl; congruence. Qed.

Lemma sentence_content_str h v s : sentence_content h v = CStr s → v = PStr s.
Proof.
  destruct v as [| | |l]; simpl; try congruence.
  by destruct (h !! l) as [[|]|].
Qed.

(** A sentence is a list of the tokens [ts] exactly when its content says
    so; likewise a batch of plain strings and a batch of token lists. *)
Lemma holds_str_list_sentence_content h v ts :
  holds_str_list h v ts ↔ sentence_content h v = CList (CStr <$> ts).
Proof.
  split.
  - intros (l & -> & Hl). simpl. rewrite Hl. f_equal.
    rewrite <- list_fmap_compose. by apply list_fmap_ext.
  - destruct v as [| | |l]; simpl; try done.
    destruct (h !! l) as [[items|]|] eqn:Hl; try done.
    intros [= H]. apply fmap_content_strs in H as ->; [|apply token_content_str].
    by exists l.
Qed.

Lemma holds_str_list_content h v ss :
  holds_str_list h v ss ↔ batch_content h v = CList (CStr <$> ss).
Proof.
  split.
  - intros (l & -> & Hl). simpl. rewrite Hl. f_equal.
    rewrite <- list_fmap_compose. by apply list_fmap_ext.
  - destruct v as [| | |l]; simpl; try done.
    destruct (h !! l) as [[items|]|] eqn:Hl; try done.
    intros [= H].
    apply fmap_content_strs in H as ->; [|apply sentence_content_str].
    by exists l.
Qed.

Lemma holds_token_lists_content h v tss :
  holds_token_lists h v tss
  ↔ batch_content h v = CList ((λ ts, CList (CStr <$> ts)) <$> tss).
Proof.
  split.
  - intros (l & items & -> & Hl & Hitems). simpl. rewrite Hl. f_equal.
    clear Hl. induction Hitems as [|item ts items tss Hitem _ IH]; [done|].
    rewrite !fmap_cons, IH. f_equal.
    by apply holds_str_list_sentence_content.
  - destruct v as [| | |l]; simpl; try done.
    destruct (h !! l) as [[items|]|] eqn:Hl; try done.
    intros [= H]. exists l, items. split; [done|]. split; [done|].
    clear Hl. revert tss H. induction items as [|item items IH]; intros [|ts tss] H;
      try done; try (by constructor).
    rewrite !fmap_cons in H. injection H as Hitem H. constructor; [|by apply IH].
    by apply holds_str_list_sentence_content.
Qed.

Lemma normal_forms_content h1 v1 h2 v2 tokenised ns :
  batch_content h1 v1 = batch_content h2 v2 →
  normal_forms h1 v1 tokenised ns → normal_forms h2 v2 tokenised ns.
Proof.
  intros Hc. unfold normal_forms. destruct tokenised.
  - intros (tss & H & ->). exists tss. split; [|done].
    apply holds_token_lists_content. rewrite <- Hc.
    by apply holds_token_lists_content.
  - intros (ss & H & ->). exists ss. split; [|done].
    apply holds_str_list_content. rewrite <- Hc.
    by apply holds_str_list_content.
Qed.

Lemma matches_flag_content h1 v1 h2 v2 tokenised :
  batch_content h1 v1 = batch_content h2 v2 →
  matches_flag h1 v1 tokenised → matches_flag h2 v2 tokenised.
Proof.
  intros Hc [ns Hns]%matches_normal_forms.
  eapply normal_forms_matches, normal_forms_content; [exact Hc|exact Hns].
Qed.

(** C9.  Two calls with identical input, identical flags and identical
    answers have the same outcome, the same list or the same exception:
    whatever the heaps and the request logs are, the batches need only
    have the same content and the clients the same URL.  In particular a
    call made again after the first one has run, against collaborators
    that answer alike, has the outcome of the first. *)
Theorem same_input_same_output {json tree} (env1 env2 : Environment json tree)
    st1 st2 self1 self2 u v1 v2 suppress tokenised :
  same_answers env1 env2 →
  heap st1 !! self1 = Some (OWebParser u) →
  heap st2 !! self2 = Some (OWebParser u) →
  batch_content (heap st1) v1 = batch_content (heap st2) v2 →
  snd (run (sentences2trees (env:=env1) self1 v1 suppress tokenised) st1)
  = snd (run (sentences2trees (env:=env2) self2 v2 suppress tokenised) st2)
  ∧ snd (run (sentences2trees (env:=env2) self1 v1 suppress tokenised)
             (fst (run (sentences2trees (env:=env1) self1 v1 suppress tokenised) st1)))
    = snd (run (sentences2trees (env:=env1) self1 v1 suppress tokenised) st1).
Proof.
  intros Hsame Hself1 Hself2 Hc.
  assert (∀ st self v,
            snd (run (sentences2trees (env:=env2) self v suppress tokenised) st)
            = snd (run (sentences2trees (env:=env1) self v suppress tokenised) st))
    as Henv.
  { intros st self v. symmetry.
    by apply (agree_sentences2trees env1 env2 Hsame self v suppress tokenised). }
  rewrite !Henv. split.
  - destruct (matches_flag_cases (heap st1) v1 tokenised) as [Hm|Hm].
    + apply matches_normal_forms in Hm as [ns Hns].
      rewrite (outcome_pure st1 self1 u v1 suppress tokenised ns Hself1 Hns).
      symmetry. apply outcome_pure; [done|].
      by eapply normal_forms_content.
    + rewrite (sentences2trees_reject _ _ _ _ _ Hm).
      rewrite sentences2trees_reject; [done|].
      intros Hm2. apply Hm. by eapply matches_flag_content.
  - destruct (matches_flag_cases (heap st1) v1 tokenised) as [Hm|Hm].
    + apply matches_normal_forms in Hm as [ns Hns].
      rewrite (outcome_pure st1 self1 u v1 suppress tokenised ns Hself1 Hns).
      destruct (sentences2trees_heap (env:=env1) st1 self1 v1 suppress tokenised)
        as [E|[items E]].
      * apply outcome_pure; by rewrite E.
      * apply outcome_pure; rewrite E.
        -- by apply lookup_insert_fresh.
        -- by apply normal_forms_insert_fresh.
    + rewrite (sentences2trees_reject _ _ _ _ _ Hm). simpl fst.
      by rewrite (sentences2trees_reject _ _ _ _ _ Hm).
Qed.


Lemma same_input_same_output_demo :
  batch_content (heap demo_state) (PRef 2%positive)
  = batch_content (heap moved_state) (PRef 9%positive)
  ∧ snd (run (sentences2trees (env:=mock demo_table) 1%positive (PRef 2%positive)
                true false) demo_state)
    = snd (run (sentences2trees (env:=mock demo_table) 7%positive (PRef 9%positive)
                  true false) moved_state).
Proof.
  split; [reflexivity|].
  apply (same_input_same_output (mock demo_table) (mock demo_table) demo_state
           moved_state 1%positive 7%positive demo_url (PRef 2%positive)
           (PRef 9%positive) true false).
  - repeat split.
  - reflexivity.
  - reflexivity.
  - reflexivity.
Defined.

(** ** The further properties at work on the test double *)

Example WebParseError_str_example :
  WebParseError_str quoted (lit "b") 500
  = lit "Online parsing of sentence 'b' failed, Web status code: 500.".
Proof. reflexivity. Qed.

Example str_of_Z_examples :
  str_of_Z 0 = lit "0" ∧ str_of_Z 404 = lit "404" ∧ str_of_Z (-3) = lit "-3".
Proof. repeat split. Qed.

Lemma empty_batch_returns_empty_demo :
  run (sentences2trees (env:=mock demo_table) 1%positive (PRef 3%positive) false true)
      demo_state
  = (State (<[fresh (dom (heap demo_state)) := OList []]> (heap demo_state)) [],
     Return []).
Proof.
  apply (empty_batch_returns_empty (env:=mock demo_table) demo_state 1%positive
           3%positive false true).
  reflexivity.
Defined.

Lemma strict_result_from_documents_demo :
  Forall2 (λ s t, ∃ url data t',
             request_url (env:=mock tea_table) demo_url s = Return url
             ∧ urlopen (Environment:=mock tea_table) url = Body data
             ∧ from_json (Environment:=mock tea_table) data = Return t'
             ∧ t = Some t')
          [lit "I like tea"] [Some (lit "tree:I like tea")].
Proof.
  apply (strict_result_from_documents (env:=mock tea_table) tea_state 1%positive
           demo_url (PRef 4%positive) false [lit "I like tea"]
           (fst (run (sentences2trees (env:=mock tea_table) 1%positive
                        (PRef 4%positive) false false) tea_state))).
  - reflexivity.
  - exists [lit "  I   like   tea  "]. split; [|reflexivity].
    exists 4%positive. split; reflexivity.
  - vm_compute. reflexivity.
Defined.

Lemma ab_normal_forms :
  normal_forms (heap ab_state) (PRef 2%positive) false [lit "a"; lit "b"].
Proof.
  exists [lit "a"; lit "b"]. split; [|reflexivity].
  exists 2%positive. split; reflexivity.
Defined.

Lemma exceptions_have_an_origin_demo :
  (false = false ∧ ∃ i, [lit "a"; lit "b"] !! i = Some []
                        ∧ WebParseError (lit "b") 500 = ValueError (blank_message i))
  ∨ ∃ s, s ∈ [lit "a"; lit "b"] ∧ s ≠ []
      ∧ (urlencode (Environment:=mock ab_table) s = Raise (WebParseError (lit "b") 500)
         ∨ ∃ url, request_url (env:=mock ab_table) demo_url s = Return url
             ∧ ((∃ data, urlopen (Environment:=mock ab_table) url = Body data
                         ∧ from_json (Environment:=mock ab_table) data
                           = Raise (WebParseError (lit "b") 500))
                ∨ (false = false
                   ∧ urlopen (Environment:=mock ab_table) url
                     = Failure (WebParseError (lit "b") 500))
                ∨ (false = false
                   ∧ ∃ code z, urlopen (Environment:=mock ab_table) url = HTTPError code
                               ∧ last [lit "a"; lit "b"] = Some z
                               ∧ WebParseError (lit "b") 500 = WebParseError z code))).
Proof.
  apply (exceptions_have_an_origin (env:=mock ab_table) ab_state 1%positive demo_url
           (PRef 2%positive) false false [lit "a"; lit "b"]
           (WebParseError (lit "b") 500)).
  - reflexivity.
  - exact ab_normal_forms.
  - vm_compute. reflexivity.
Defined.

Lemma http_error_status_reported_demo :
  ∃ z new,
    last ([] ++ [lit "a"; lit "b"]) = Some z
    ∧ map_result (request_url (env:=mock ab_table) demo_url) [] = Return new
    ∧ snd (run (sentences2trees (env:=mock ab_table) 1%positive (PRef 2%positive)
                  false false) ab_state)
      = Raise (WebParseError z 500)
    ∧ requests (fst (run (sentences2trees (env:=mock ab_table) 1%positive
                            (PRef 2%positive) false false) ab_state))
      = requests ab_state ++ new ++ [lit "http://parser.test/tree?sentence=a"].
Proof.
  apply (http_error_status_reported (env:=mock ab_table) ab_state 1%positive demo_url
           (PRef 2%positive) false [] (lit "a") [lit "b"]
           (lit "http://parser.test/tree?sentence=a") 500).
  - reflexivity.
  - exact ab_normal_forms.
  - repeat constructor; discriminate.
  - constructor.
  - reflexivity.
  - reflexivity.
Defined.

Lemma earlier_call_does_not_interfere_demo :
  snd (run (sentences2trees (env:=mock demo_table) 1%positive (PRef 2%positive)
              true false)
           (fst (run (sentences2trees (env:=mock demo_table) 1%positive
                        (PRef 5%positive) true true) demo_state)))
  = snd (run (sentences2trees (env:=mock demo_table) 1%positive (PRef 2%positive)
                true false) demo_state).
Proof.
  apply (earlier_call_does_not_interfere (env:=mock demo_table) demo_state 1%positive
           demo_url (PRef 5%positive) true true (PRef 2%positive) true false).
  - reflexivity.
  - exists [lit ""; lit "hello"]. exists 2%positive. split; reflexivity.
Defined.

Lemma constructed_client_uses_its_url_demo :
  ∃ self st1,
    run (WebParser_init None) demo_state = (st1, Return self)
    ∧ heap demo_state !! self = None
    ∧ heap st1 !! self = Some (OWebParser SERVICE_URL)
    ∧ (∀ l o, heap demo_state !! l = Some o → heap st1 !! l = Some o)
    ∧ ∃ sent rest new,
        nonblank [lit ""; lit "hello"] = sent ++ rest
        ∧ map_result (request_url (env:=mock demo_table) SERVICE_URL) sent = Return new
        ∧ requests (fst (run (sentences2trees (env:=mock demo_table) self
                                (PRef 2%positive) true false) st1))
          = requests demo_state ++ new.
Proof.
  apply (constructed_client_uses_its_url (env:=mock demo_table) demo_state None
           (PRef 2%positive) true false [lit ""; lit "hello"]).
  exists [lit ""; lit "hello"]. split; [|reflexivity].
  exists 2%positive. split; reflexivity.
Defined.

Lemma tokens_and_text_agree_demo :
  snd (run (sentences2trees (env:=mock tea_table) 1%positive (PRef 3%positive)
              false true) text_state)
  = snd (run (sentences2trees (env:=mock tea_table) 1%positive (PRef 4%positive)
                false false) text_state).
Proof.
  apply (tokens_and_text_agree (env:=mock tea_table) text_state 1%positive demo_url
           (PRef 3%positive) (PRef 4%positive) false
           [[lit "I"; lit "like"; lit "tea"]]).
  - reflexivity.
  - exists 3%positive, [PRef 2%positive]. split; [reflexivity|].
    split; [reflexivity|]. constructor; [|constructor].
    exists 2%positive. split; reflexivity.
  - repeat constructor.
  - exists 4%positive. split; reflexivity.
Defined.

Lemma WebParseError_str_tells_code_demo : 500%Z = 500%Z.
Proof.
  apply (WebParseError_str_tells_code quoted (lit "b") 500 500). reflexivity.
Defined.
